(** * Multiplayer tic-tac-toe server: a shallow embedding of [server.js]

    The development follows the layout of the server:
    - [Board]: the pure helpers [boardToArray], [arrayToBoard], [checkWinner];
    - [Store]: the two tables [game_rooms] and [players] and the queries the
      handlers issue against them;
    - [Server]: the handlers ([create-room], [join-room], [make-move],
      [reset-game], [disconnect] and its deferred cleanup) written in a small
      state-and-exception monad in which every [pool.query] may reject, and
      the server as a step function over the events it receives;
    - [Spec]: the vocabulary of the properties proved in the second half.

    In [Server] a handler runs from start to end before the next event is
    handled. [Async] gives the handlers of the game events once more, as
    the statements they await one after the other, and a machine in which
    the handlers of events that arrive together are interleaved at their
    [await]s; a handler that is alone in the machine does what [Server]
    says.

    JavaScript strings are [string], [null]/[undefined] are [None], arrays
    are lists read with [!!], tables with a UNIQUE key are [gmap]s. *)

From stdpp Require Import gmap strings list fin_maps.
From Stdlib Require Import ZArith.

(** ** The board helpers *)

Module Board.

(** [boardString.split('').map(char => char === ' ' ? '' : char)] *)
Definition boardToArray (boardString : string) : list string :=
  (λ char, if Ascii.eqb char Ascii.Space then "" else String char "")
    <$> String.list_ascii_of_string boardString.

(** [boardArray.map(cell => cell || ' ').join('')] *)
Definition arrayToBoard (boardArray : list string) : string :=
  String.concat "" ((λ cell, if String.eqb cell "" then " " else cell) <$> boardArray).

(** JavaScript truthiness of an array read: [undefined] and [''] are falsy. *)
Definition truthy (v : option string) : bool :=
  match v with
  | Some s => negb (String.eqb s "")
  | None => false
  end.

(** [v === w] on values that are strings or [undefined]. *)
Definition strict_eq (v w : option string) : bool := bool_decide (v = w).

Definition winPatterns : list (nat * nat * nat) :=
  [ (0, 1, 2); (3, 4, 5); (6, 7, 8);   (* rows *)
    (0, 3, 6); (1, 4, 7); (2, 5, 8);   (* columns *)
    (0, 4, 8); (2, 4, 6) ]%nat.        (* diagonals *)

(** The test of the [for] loop's body. *)
Definition completes (board : list string) (pattern : nat * nat * nat) : bool :=
  let '(a, b, c) := pattern in
  truthy (board !! a)
  && strict_eq (board !! a) (board !! b)
  && strict_eq (board !! a) (board !! c).

(** The [for (let pattern of patterns)] loop followed by the [every] test.
    The result is a JavaScript value: a string, or [null] ([None]). *)
Fixpoint checkWinner_from (board : list string) (patterns : list (nat * nat * nat))
  : option string :=
  match patterns with
  | [] =>
      if forallb (λ cell, negb (String.eqb cell "")) board
      then Some "draw"
      else None
  | pattern :: rest =>
      if completes board pattern
      then board !! pattern.1.1
      else checkWinner_from board rest
  end.

Definition checkWinner (board : list string) : option string :=
  checkWinner_from board winPatterns.

(** *** Vocabulary of the specification *)

(** The 8 standard triples, built from the geometry of the 3x3 grid rather
    than copied from the code. *)
Definition rows : list (nat * nat * nat) :=
  (λ r, (3 * r, 3 * r + 1, 3 * r + 2)%nat) <$> [0; 1; 2]%nat.
Definition columns : list (nat * nat * nat) :=
  (λ c, (c, c + 3, c + 6)%nat) <$> [0; 1; 2]%nat.
Definition diagonals : list (nat * nat * nat) := [ (0, 4, 8); (2, 4, 6) ]%nat.
Definition standard_triples : list (nat * nat * nat) :=
  rows ++ columns ++ diagonals.

(** The three cells of [pattern] hold the same non-empty value [s]. *)
Definition uniform_with (board : list string) (pattern : nat * nat * nat) (s : string) : Prop :=
  s ≠ "" ∧ board !! pattern.1.1 = Some s
  ∧ board !! pattern.1.2 = Some s ∧ board !! pattern.2 = Some s.

Definition uniform (board : list string) (pattern : nat * nat * nat) : Prop :=
  ∃ s, uniform_with board pattern s.

(** [s] is the value of the first uniform triple in the order of [patterns]. *)
Definition first_uniform (board : list string) (patterns : list (nat * nat * nat))
    (s : string) : Prop :=
  ∃ before pattern after,
    patterns = before ++ pattern :: after
    ∧ Forall (λ p, ¬ uniform board p) before
    ∧ uniform_with board pattern s.

Definition all_filled (board : list string) : Prop := Forall (λ cell, cell ≠ "") board.

(** Cells hold at most one character: what [boardToArray] produces and what
    writing a player symbol preserves. *)
Definition cells_ok (board : list string) : Prop :=
  Forall (λ cell, String.length cell ≤ 1) board.

End Board.

Import Board.

(** ** The persistent store and the per-connection fields *)

Module Store.

(** A row of [game_rooms]; the UNIQUE column [room_code] is the key of the
    table. The serial [id] and the two timestamps are never read back by the
    handlers and are left out. *)
Record room := {
  player1_id : option string;
  player2_id : option string;
  current_player : string;
  board : string;
  game_status : string;
  winner : option string }.

(** A row of [players]; the UNIQUE column [socket_id] is the key of the
    table. [p_room_code] is the column [room_code]. *)
Record player := {
  p_room_code : string;
  symbol : string;
  name : string;
  connected : bool }.

(** The fields the handlers attach to a socket object. *)
Record socket := {
  roomCode : option string;
  playerSymbol : option string }.

(** [sockets] is [io.sockets.sockets]: the open connections. [timers] holds
    one entry per pending [setTimeout] of the disconnect handler: the value
    of [socket.roomCode] its callback reads; that socket is closed when the
    timer is set, so the field no longer changes. *)
Record world := {
  game_rooms : gmap string room;
  players : gmap string player;
  sockets : gmap string socket;
  timers : list string }.

(** The column defaults of [INSERT INTO game_rooms (room_code)]. *)
Definition new_room : room :=
  {| player1_id := None; player2_id := None; current_player := "X";
     board := "         "; game_status := "waiting"; winner := None |}.

Definition new_socket : socket := {| roomCode := None; playerSymbol := None |}.

Definition set_game_rooms (f : gmap string room → gmap string room) (w : world) : world :=
  {| game_rooms := f (game_rooms w); players := players w;
     sockets := sockets w; timers := timers w |}.
Definition set_players (f : gmap string player → gmap string player) (w : world) : world :=
  {| game_rooms := game_rooms w; players := f (players w);
     sockets := sockets w; timers := timers w |}.
Definition set_sockets (f : gmap string socket → gmap string socket) (w : world) : world :=
  {| game_rooms := game_rooms w; players := players w;
     sockets := f (sockets w); timers := timers w |}.
Definition set_timers (f : list string → list string) (w : world) : world :=
  {| game_rooms := game_rooms w; players := players w;
     sockets := sockets w; timers := f (timers w) |}.

(** [WHERE room_code = $1 AND connected = true] *)
Definition connected_in (code : string) (kv : string * player) : Prop :=
  p_room_code kv.2 = code ∧ connected kv.2 = true.

Global Instance connected_in_dec code kv : Decision (connected_in code kv).
Proof. unfold connected_in. apply _. Defined.

(** The rows of [SELECT * FROM players WHERE room_code = $1 AND connected = true],
    each with its [socket_id]. The statement has no ORDER BY: the list is
    the rows in one of the orders in which the store may return them, and
    what is proved about the sequence of the rows is proved up to that
    order. *)
Definition connected_players (code : string) (w : world) : list (string * player) :=
  map_to_list (filter (connected_in code) (players w)).

(** What a column of type [VARCHAR(n)] keeps of [s], if it accepts it: a
    longer string is refused with an error, unless the characters in excess
    are all spaces, which are then cut off. A [string] stands for the
    sequence of characters that the column counts. *)
Definition varchar (n : nat) (s : string) : option string :=
  if decide (String.length s ≤ n) then Some s
  else if forallb (λ a, Ascii.eqb a Ascii.Space)
            (drop n (String.list_ascii_of_string s))
       then Some (String.substring 0 n s)
       else None.

(** What the server sends. *)
Record gameState := {
  gs_roomCode : string;
  gs_board : list string;
  gs_currentPlayer : string;
  gs_gameStatus : string;
  gs_winner : option string;
  gs_players : list (string * player);
  gs_lastMove : option (Z * string) }.

Inductive target :=
| ToSocket (id : string)                   (* socket.emit *)
| ToRoom (code : string)                   (* io.to(code).emit *)
| ToOthers (code : string) (id : string).  (* socket.to(code).emit *)

Inductive message :=
| error (text : string)
| room_joined (state : gameState)
| game_updated (state : gameState)
| game_reset (state : gameState)
| player_info (symbol : string) (isMyTurn : bool)
| player_disconnected (playerId : string) (symbol : option string).

(** The HTTP responses of the two API routes. *)
Inductive response :=
| created (roomCode : string)                        (* { roomCode, success: true } *)
| found (r : room) (boardArray : list string)
    (ps : list (string * player))                    (* { room: {...room, board}, players } *)
| failed (status : nat) (text : string).             (* res.status(..).json({ error }) *)

End Store.

Import Store.

(** ** Handlers *)

Module Server.

(** A handler runs over the world, appends to the messages sent, and may be
    interrupted by an exception. [fault] is the number of queries that still
    succeed before [pool.query] rejects ([None]: the store never fails).
    Nothing is rolled back when an exception is raised: the writes made so
    far stay in the world that is returned. *)
Record ctx := {
  now : world;
  sent : list (target * message);
  fault : option nat }.

Definition M (A : Type) : Type := ctx → option A * ctx.

Definition ret {A} (a : A) : M A := λ c, (Some a, c).
Definition bind {A B} (m : M A) (k : A → M B) : M B :=
  λ c, match m c with
       | (Some a, c') => k a c'
       | (None, c') => (None, c')
       end.
Definition throw {A} : M A := λ c, (None, c).

Notation "x <- m ;; k" := (bind m (λ x, k))
  (at level 100, m at next level, k at level 200).
Notation "m ;; k" := (bind m (λ _, k))
  (at level 100, k at level 200).

(** [try { body } catch (err) { handler }] *)
Definition try_catch {A} (body handler : M A) : M A :=
  λ c, match body c with
       | (Some a, c') => (Some a, c')
       | (None, c') => handler c'
       end.

Definition gets {A} (f : world → A) : M A := λ c, (Some (f (now c)), c).
Definition modify (f : world → world) : M unit :=
  λ c, (Some tt, {| now := f (now c); sent := sent c; fault := fault c |}).
Definition emit (t : target) (m : message) : M unit :=
  λ c, (Some tt, {| now := now c; sent := sent c ++ [(t, m)]; fault := fault c |}).

(** [await pool.query(..)]: rejects when the fault is due. *)
Definition query : M unit :=
  λ c, match fault c with
       | Some O => (None, c)
       | Some (S n) => (Some tt, {| now := now c; sent := sent c; fault := Some n |})
       | None => (Some tt, c)
       end.

(** Reading a field of [result.rows[0]] when there is no row is a TypeError. *)
Definition first_row {A} (rows : option A) : M A :=
  match rows with
  | Some r => ret r
  | None => throw
  end.

(** *** Queries *)

(** [SELECT * FROM game_rooms WHERE room_code = $1]: at most one row. *)
Definition select_room (code : string) : M (option room) :=
  query ;; gets (λ w, game_rooms w !! code).

Definition select_connected (code : string) : M (list (string * player)) :=
  query ;; gets (connected_players code).

(** [INSERT INTO game_rooms (room_code) VALUES ($1)]; a duplicate code
    violates the UNIQUE constraint. *)
Definition insert_room (code : string) : M unit :=
  query ;;
  existing <- gets (λ w, game_rooms w !! code) ;;
  match existing with
  | Some _ => throw
  | None => modify (set_game_rooms (insert code new_room))
  end.

(** [INSERT INTO players .. ON CONFLICT (socket_id) DO UPDATE SET ..]: either
    way the row of [id] becomes [(code, symbol, name, true)], with the name
    as the column [name VARCHAR(100)] keeps it; a name that the column
    refuses makes the query reject. The other values always fit their
    columns: [id] is a socket id, [code] the code of a room that was found
    and [symbol] is ['X'] or ['O']. *)
Definition upsert_player (id code symbol name : string) : M unit :=
  query ;;
  match varchar 100 name with
  | Some stored =>
      modify (set_players (insert id
        {| p_room_code := code; symbol := symbol; name := stored;
           connected := true |}))
  | None => throw
  end.

(** [UPDATE game_rooms SET .. WHERE room_code = $n] *)
Definition update_room (code : string) (f : room → room) : M unit :=
  query ;; modify (set_game_rooms (alter f code)).

(** [UPDATE players SET connected = false WHERE socket_id = $1] *)
Definition mark_disconnected (id : string) : M unit :=
  query ;;
  modify (set_players (alter (λ p,
    {| p_room_code := p_room_code p; symbol := symbol p; name := name p;
       connected := false |}) id)).

(** [DELETE FROM players WHERE room_code = $1] *)
Definition delete_players (code : string) : M unit :=
  query ;;
  modify (set_players (filter (λ kv : string * player, p_room_code kv.2 ≠ code))).

(** [DELETE FROM game_rooms WHERE room_code = $1] *)
Definition delete_room (code : string) : M unit :=
  query ;; modify (set_game_rooms (delete code)).

(** The fields of the socket object of connection [id]. *)
Definition socket_in (w : world) (id : string) : socket :=
  default new_socket (sockets w !! id).

Definition socket_of (id : string) : M socket :=
  gets (λ w, socket_in w id).

(** *** [sendPlayerInfo] *)

(** [rows.forEach(f)] *)
Fixpoint forEach {A} (f : A → M unit) (rows : list A) : M unit :=
  match rows with
  | [] => ret tt
  | row :: rest => f row ;; forEach f rest
  end.

Definition sendPlayerInfo (roomCode : string) : M unit :=
  roomResult <- select_room roomCode ;;
  match roomResult with
  | None => ret tt
  | Some room =>
      players <- select_connected roomCode ;;
      open <- gets sockets ;;
      forEach (λ '(socket_id, player),
        if open !! socket_id is Some _ then
          emit (ToSocket socket_id)
            (player_info (symbol player)
               (bool_decide (symbol player = current_player room)
                && bool_decide (game_status room = "playing")))
        else ret tt) players
  end.

(** *** [POST /api/create-room] *)

(** The [do .. while (attempts < 10)] loop. [gen i] is the code that the
    call number [i] of [generateRoomCode] returns; [attempts] is the counter
    on entry of the body; the result is the last candidate with the counter
    on exit. [budget] bounds the recursion and is never reached from
    [attempts = 0] and [budget = 10]. *)
Fixpoint generate_unique (gen : nat → string) (attempts budget : nat) : M (string * nat) :=
  let roomCode := gen attempts in
  let attempts := S attempts in
  existing <- select_room roomCode ;;
  match existing with
  | None => ret (roomCode, attempts)
  | Some _ =>
      if decide (attempts < 10) then
        match budget with
        | O => ret (roomCode, attempts)
        | S budget => generate_unique gen attempts budget
        end
      else ret (roomCode, attempts)
  end.

Definition create_room (gen : nat → string) : M response :=
  try_catch
    (generated <- generate_unique gen 0 10 ;;
     let '(roomCode, attempts) := generated in
     if decide (10 ≤ attempts) then
       ret (failed 500 "Unable to generate unique room code")
     else
       insert_room roomCode ;;
       ret (created roomCode))
    (ret (failed 500 "Failed to create room")).

(** *** [GET /api/room/:code] *)

Definition get_room (code : string) : M response :=
  try_catch
    (result <- select_room code ;;
     match result with
     | None => ret (failed 404 "Room not found")
     | Some room =>
         players <- select_connected code ;;
         ret (found room (boardToArray (board room)) players)
     end)
    (ret (failed 500 "Failed to fetch room")).

(** *** [socket.on('join-room')] *)

(** [playerName] is the name after the default ['Anonymous'] has been
    applied. [socket.join(roomCode)] only registers the socket as a
    receiver of the broadcasts to the room, which are kept here as messages
    addressed to the room. *)

Definition join_room (id roomCode playerName : string) : M unit :=
  try_catch
    (roomResult <- select_room roomCode ;;
     match roomResult with
     | None => emit (ToSocket id) (error "Room not found")
     | Some room =>
         playersResult <- select_connected roomCode ;;
         if decide (2 ≤ length playersResult) then
           emit (ToSocket id) (error "Room is full")
         else
           let isFirstPlayer := bool_decide (length playersResult = 0) in
           let symbol := if isFirstPlayer then "X" else "O" in
           upsert_player id roomCode symbol playerName ;;
           modify (set_sockets (insert id
             {| roomCode := Some roomCode; playerSymbol := Some symbol |})) ;;
           (if isFirstPlayer then
              update_room roomCode (λ r,
                {| player1_id := Some id; player2_id := player2_id r;
                   current_player := current_player r; board := board r;
                   game_status := game_status r; winner := winner r |})
            else
              update_room roomCode (λ r,
                {| player1_id := player1_id r; player2_id := Some id;
                   current_player := current_player r; board := board r;
                   game_status := "playing"; winner := winner r |})) ;;
           updatedRoom <- select_room roomCode ;;
           allPlayers <- select_connected roomCode ;;
           updated <- first_row updatedRoom ;;
           emit (ToRoom roomCode) (room_joined
             {| gs_roomCode := roomCode;
                gs_board := boardToArray (board updated);
                gs_currentPlayer := current_player updated;
                gs_gameStatus := game_status updated;
                gs_winner := winner updated;
                gs_players := allPlayers;
                gs_lastMove := None |}) ;;
           sendPlayerInfo roomCode
     end)
    (emit (ToSocket id) (error "Failed to join room")).

(** *** [socket.on('make-move')] *)

(** [!socket.roomCode || socket.roomCode !== roomCode] *)
Definition not_in_room (s : socket) (code : string) : bool :=
  negb (truthy (roomCode s)) || negb (strict_eq (roomCode s) (Some code)).

(** [position < 0 || position > 8 || boardArray[position] !== ''],
    for a position that is an integer. *)
Definition invalid_move (boardArray : list string) (position : Z) : bool :=
  (position <? 0)%Z || (position >? 8)%Z
  || negb (strict_eq (boardArray !! Z.to_nat position) (Some "")).

(** The UPDATE of a move, as a function on the row it rewrites: [r] is the
    row read at the start of the handler, from which the four new column
    values are computed. The assignment [boardArray[position] = symbol] is
    in range here (the cell was read as [''] just before), where the list
    update is the array update. *)
Definition moved (r : room) (position : Z) (symbol : string) (row : room) : room :=
  let boardArray := <[Z.to_nat position := symbol]> (boardToArray (board r)) in
  let newBoard := arrayToBoard boardArray in
  let winner := checkWinner boardArray in
  let nextPlayer := if String.eqb symbol "X" then "O" else "X" in
  let gameStatus := if truthy winner then "finished" else "playing" in
  {| player1_id := player1_id row; player2_id := player2_id row;
     current_player := nextPlayer; board := newBoard;
     game_status := gameStatus;
     winner := if strict_eq winner (Some "draw") then None else winner |}.

(** The turn test [room.current_player !== socket.playerSymbol] is written
    as a match: past it, [socket.playerSymbol] is the string [symbol]. *)
Definition make_move (id roomCode : string) (position : Z) : M unit :=
  try_catch
    (socket <- socket_of id ;;
     if not_in_room socket roomCode then
       emit (ToSocket id) (error "Not in this room")
     else
       roomResult <- select_room roomCode ;;
       match roomResult with
       | None => emit (ToSocket id) (error "Room not found")
       | Some room =>
           if negb (String.eqb (game_status room) "playing") then
             emit (ToSocket id) (error "Game not in progress")
           else
             match playerSymbol socket with
             | None => emit (ToSocket id) (error "Not your turn")
             | Some symbol =>
                 if negb (String.eqb (current_player room) symbol) then
                   emit (ToSocket id) (error "Not your turn")
                 else if invalid_move (boardToArray (board room)) position then
                   emit (ToSocket id) (error "Invalid move")
                 else
                   update_room roomCode (moved room position symbol) ;;
                   updatedRoom <- select_room roomCode ;;
                   players <- select_connected roomCode ;;
                   updated <- first_row updatedRoom ;;
                   emit (ToRoom roomCode) (game_updated
                     {| gs_roomCode := roomCode;
                        gs_board := boardToArray (board updated);
                        gs_currentPlayer := current_player updated;
                        gs_gameStatus := game_status updated;
                        gs_winner := winner updated;
                        gs_players := players;
                        gs_lastMove := Some (position, symbol) |}) ;;
                   sendPlayerInfo roomCode
             end
       end)
    (emit (ToSocket id) (error "Failed to make move")).

(** *** [socket.on('reset-game')] *)

Definition cleared (r : room) : room :=
  {| player1_id := player1_id r; player2_id := player2_id r;
     current_player := "X"; board := "         ";
     game_status := "playing"; winner := None |}.

Definition reset_game (id roomCode : string) : M unit :=
  try_catch
    (socket <- socket_of id ;;
     if not_in_room socket roomCode then
       emit (ToSocket id) (error "Not in this room")
     else
       update_room roomCode cleared ;;
       updatedRoom <- select_room roomCode ;;
       players <- select_connected roomCode ;;
       updated <- first_row updatedRoom ;;
       emit (ToRoom roomCode) (game_reset
         {| gs_roomCode := roomCode;
            gs_board := boardToArray (board updated);
            gs_currentPlayer := current_player updated;
            gs_gameStatus := game_status updated;
            gs_winner := None;
            gs_players := players;
            gs_lastMove := None |}) ;;
       sendPlayerInfo roomCode)
    (emit (ToSocket id) (error "Failed to reset game")).

(** *** [socket.on('disconnect')] and its deferred cleanup *)

(** The callback given to [setTimeout]: it reads the connected players when
    it runs. Its [catch] only logs. *)
Definition cleanup (roomCode : string) : M unit :=
  try_catch
    (activePlayers <- select_connected roomCode ;;
     if decide (length activePlayers = 0) then
       delete_players roomCode ;;
       delete_room roomCode
     else ret tt)
    (ret tt).

(** The handler; its [catch] only logs. The socket leaves
    [io.sockets.sockets] once the handler is done. *)
Definition disconnect (id : string) : M unit :=
  try_catch
    (mark_disconnected id ;;
     socket <- socket_of id ;;
     match roomCode socket with
     | Some code =>
         if truthy (Some code) then
           emit (ToOthers code id) (player_disconnected id (playerSymbol socket)) ;;
           modify (set_timers (λ ts, ts ++ [code]))
         else ret tt
     | None => ret tt
     end)
    (ret tt) ;;
  modify (set_sockets (delete id)).

(** *** Running handlers *)

(** One run of a handler from world [w], with the store rejecting query
    number [fault] (counted from 0) if any: the value, the world left
    behind, and the messages sent. *)
Definition run {A} (m : M A) (fault : option nat) (w : world)
  : option A * world * list (target * message) :=
  let '(a, c) := m {| now := w; sent := []; fault := fault |} in
  (a, now c, sent c).

Definition world_after {A} (m : M A) (fault : option nat) (w : world) : world :=
  (run m fault w).1.2.

Definition messages_of {A} (m : M A) (fault : option nat) (w : world)
  : list (target * message) :=
  (run m fault w).2.

Definition value_of {A} (m : M A) (fault : option nat) (w : world) : option A :=
  (run m fault w).1.1.

(** What reaches the server. Socket events are delivered only for open
    connections; [Timeout n] is the firing of the pending timer number [n]. *)
Inductive request :=
| CreateRoom (gen : nat → string)
| GetRoom (code : string)
| Connection (id : string)
| JoinRoom (id roomCode playerName : string)
| MakeMove (id roomCode : string) (position : Z)
| ResetGame (id roomCode : string)
| Disconnect (id : string)
| Timeout (n : nat).

Definition is_open (id : string) (w : world) : bool :=
  bool_decide (is_Some (sockets w !! id)).

Definition step (w : world) (ev : request * option nat) : world :=
  let '(req, fault) := ev in
  match req with
  | CreateRoom gen => world_after (create_room gen) fault w
  | GetRoom code => world_after (get_room code) fault w
  | Connection id =>
      if is_open id w then w else set_sockets (insert id new_socket) w
  | JoinRoom id roomCode playerName =>
      if is_open id w then world_after (join_room id roomCode playerName) fault w else w
  | MakeMove id roomCode position =>
      if is_open id w then world_after (make_move id roomCode position) fault w else w
  | ResetGame id roomCode =>
      if is_open id w then world_after (reset_game id roomCode) fault w else w
  | Disconnect id =>
      if is_open id w then world_after (disconnect id) fault w else w
  | Timeout n =>
      match timers w !! n with
      | Some code => world_after (cleanup code) fault (set_timers (delete n) w)
      | None => w
      end
  end.

Definition initial : world :=
  {| game_rooms := ∅; players := ∅; sockets := ∅; timers := [] |}.

Definition steps (w : world) (evs : list (request * option nat)) : world :=
  foldl step w evs.

Definition reachable (w : world) : Prop := ∃ evs, w = steps initial evs.

End Server.

Import Server.

(** ** Vocabulary of the properties *)

Module Spec.

(** Connection [id] is bound to room [code]: [socket.roomCode] is set and
    is [code]. *)
Definition bound_to (w : world) (id code : string) : Prop :=
  roomCode (socket_in w id) = Some code ∧ code ≠ "".

(** The [player-info] messages of one [sendPlayerInfo]. *)
Definition player_infos (r : room) (open : gmap string socket)
    (rows : list (string * player)) : list (target * message) :=
  flat_map (λ row : string * player,
    if open !! row.1 is Some _ then
      [(ToSocket row.1,
        player_info (symbol row.2)
          (bool_decide (symbol row.2 = current_player r)
           && bool_decide (game_status r = "playing")))]
    else []) rows.

Definition infos_of (code : string) (w : world) : list (target * message) :=
  match game_rooms w !! code with
  | Some r => player_infos r (sockets w) (connected_players code w)
  | None => []
  end.

(** The state broadcast after a write to room [code]. *)
Definition state_of (code : string) (r : room) (w : world)
    (lastMove : option (Z * string)) : gameState :=
  {| gs_roomCode := code;
     gs_board := boardToArray (board r);
     gs_currentPlayer := current_player r;
     gs_gameStatus := game_status r;
     gs_winner := winner r;
     gs_players := connected_players code w;
     gs_lastMove := lastMove |}.

(** A move is applied when the handler broadcasts [game-updated]. *)
Definition applied (w : world) (id code : string) (position : Z) : Prop :=
  ∃ state, (ToRoom code, game_updated state)
           ∈ messages_of (make_move id code position) None w.

(** A sequence of moves [(id, position)] on room [code], the store never
    failing. *)
Definition play (code : string) (w : world) (moves : list (string * Z)) : world :=
  foldl (λ w mv, world_after (make_move mv.1 code mv.2) None w) w moves.

Fixpoint all_applied (code : string) (w : world) (moves : list (string * Z)) : Prop :=
  match moves with
  | [] => True
  | mv :: rest =>
      applied w mv.1 code mv.2
      ∧ all_applied code (world_after (make_move mv.1 code mv.2) None w) rest
  end.

(** The guards of [make-move] all pass: [r] is the row read and [symbol]
    the mover's [socket.playerSymbol]. *)
Definition move_accepted (w : world) (id code : string) (position : Z)
    (r : room) (symbol : string) : Prop :=
  bound_to w id code
  ∧ game_rooms w !! code = Some r
  ∧ game_status r = "playing"
  ∧ playerSymbol (socket_in w id) = Some symbol
  ∧ current_player r = symbol
  ∧ (0 ≤ position ≤ 8)%Z
  ∧ boardToArray (board r) !! Z.to_nat position = Some "".

(** [symbol === 'X' ? 'O' : 'X'] *)
Definition opposite (symbol : string) : string :=
  if String.eqb symbol "X" then "O" else "X".

(** The world after the UPDATE of an accepted move. *)
Definition after_move (w : world) (code : string) (position : Z)
    (r : room) (symbol : string) : world :=
  set_game_rooms (alter (moved r position symbol) code) w.

(** The two UPDATEs of [join-room]. *)
Definition seat_first (id : string) (r : room) : room :=
  {| player1_id := Some id; player2_id := player2_id r;
     current_player := current_player r; board := board r;
     game_status := game_status r; winner := winner r |}.
Definition seat_second (id : string) (r : room) : room :=
  {| player1_id := player1_id r; player2_id := Some id;
     current_player := current_player r; board := board r;
     game_status := "playing"; winner := winner r |}.

(** The symbol [join-room] hands out in world [w]. *)
Definition symbol_for (w : world) (code : string) : string :=
  if bool_decide (length (connected_players code w) = 0) then "X" else "O".

(** The column [name VARCHAR(100)] accepts [name]. *)
Definition accepted (name : string) : Prop := is_Some (varchar 100 name).

(** The world after the player upsert of a join, and after the whole join;
    [name] is the name as the column keeps it. *)
Definition after_upsert (w : world) (id code name : string) : world :=
  set_sockets (insert id
      {| roomCode := Some code; playerSymbol := Some (symbol_for w code) |})
    (set_players (insert id
      {| p_room_code := code; symbol := symbol_for w code; name := name;
         connected := true |}) w).

Definition after_join (w : world) (id code name : string) : world :=
  set_game_rooms
    (alter (if bool_decide (length (connected_players code w) = 0)
            then seat_first id else seat_second id) code)
    (after_upsert w id code name).

(** A context in which the store does not fail. *)
Abbreviation Ctx w ms := {| now := w; sent := ms; fault := None |}.

(** A room with two players about to start, used for concrete instances:
    the room is created, [a] and [b] connect and join in that order. *)
Definition lobby : world :=
  steps initial
    [ (CreateRoom (λ _, "ABC123"), None);
      (Connection "a", None); (Connection "b", None);
      (JoinRoom "a" "ABC123" "Alice", None);
      (JoinRoom "b" "ABC123" "Bob", None) ].

Definition lobby_room : room :=
  {| player1_id := Some "a"; player2_id := Some "b"; current_player := "X";
     board := "         "; game_status := "playing"; winner := None |}.

(** A freshly created room and three open connections. *)
Definition fresh_room : world :=
  steps initial
    [ (CreateRoom (λ _, "ABC123"), None);
      (Connection "a", None); (Connection "b", None); (Connection "c", None) ].

(** No two connected players of room [code] hold the same symbol. *)
Definition distinct_symbols (code : string) (w : world) : Prop :=
  ∀ id1 id2 p1 p2,
    id1 ≠ id2 →
    players w !! id1 = Some p1 → connected_in code (id1, p1) →
    players w !! id2 = Some p2 → connected_in code (id2, p2) →
    symbol p1 ≠ symbol p2.

(** The holder of X leaves the lobby and a third connection joins. *)
Definition rejoined : world :=
  steps lobby
    [ (Disconnect "a", None); (Connection "c", None);
      (JoinRoom "c" "ABC123" "Carol", None) ].

(** A cell as [boardToArray] produces it: empty, or one character other
    than the space. *)
Definition cell_formed (cell : string) : Prop :=
  cell = "" ∨ ∃ a, cell = String a "" ∧ a ≠ Ascii.Space.

(** What a finished room records: the evaluation of its board is not
    [null], and [winner] is that evaluation, except that ['draw'] is stored
    as [null]. *)
Definition finished_ok (r : room) : Prop :=
  truthy (checkWinner (boardToArray (board r))) = true
  ∧ winner r = (if strict_eq (checkWinner (boardToArray (board r))) (Some "draw")
                then None
                else checkWinner (boardToArray (board r))).

Definition room_ok (r : room) : Prop :=
  (current_player r = "X" ∨ current_player r = "O")
  ∧ (game_status r = "finished" → finished_ok r).

Definition rooms_ok (w : world) : Prop :=
  ∀ code r, game_rooms w !! code = Some r → room_ok r.

(** A game played to a draw in the lobby:
    X O X / X O O / O X X. *)
Definition drawn : world :=
  steps lobby
    [ (MakeMove "a" "ABC123" 0, None); (MakeMove "b" "ABC123" 1, None);
      (MakeMove "a" "ABC123" 2, None); (MakeMove "b" "ABC123" 4, None);
      (MakeMove "a" "ABC123" 3, None); (MakeMove "b" "ABC123" 5, None);
      (MakeMove "a" "ABC123" 7, None); (MakeMove "b" "ABC123" 6, None);
      (MakeMove "a" "ABC123" 8, None) ]%Z.

(** The lobby's room with only [a] seated, [b] still outside. *)
Definition one_seated : world :=
  steps fresh_room [ (JoinRoom "a" "ABC123" "Alice", None) ].

(** What [create-room] answers and leaves behind: the store changes only
    together with a success response. *)
Definition create_outcome (w : world) (resp : response) (w' : world) : Prop :=
  (∃ code, resp = created code ∧ game_rooms w !! code = None
           ∧ w' = set_game_rooms (insert code new_room) w)
  ∨ ((∀ code, resp ≠ created code) ∧ w' = w).

(** Nine rooms exist; the generator returns their codes in turn and then,
    at its tenth call, a code that is free. *)
Definition taken : list string :=
  [ "AAAAA1"; "AAAAA2"; "AAAAA3"; "AAAAA4"; "AAAAA5";
    "AAAAA6"; "AAAAA7"; "AAAAA8"; "AAAAA9" ].

Definition crowded : world :=
  steps initial ((λ code, (CreateRoom (λ _, code), None)) <$> taken).

Definition collide_then_free (n : nat) (i : nat) : string :=
  if decide (i < n) then default "" (taken !! i) else "ZZZZZ9".

(** Triples for handlers, valid whichever query fails: from a world
    satisfying [P], a normal end with value [a] leaves a world satisfying
    [Q a] and an exception leaves one satisfying [E]. *)
Definition hoare {A} (P : world → Prop) (m : M A)
    (Q : A → world → Prop) (E : world → Prop) : Prop :=
  ∀ c, P (now c) →
    match m c with
    | (Some a, c') => Q a (now c')
    | (None, c') => E (now c')
    end.

(** A computation that never writes leaves the world as it is. *)
Definition silent {A} (m : M A) : Prop := ∀ c, now (m c).2 = now c.

(** The rows of [players] once [id] is marked disconnected. *)
Definition offline (p : player) : player :=
  {| p_room_code := p_room_code p; symbol := symbol p; name := name p;
     connected := false |}.

(** The worlds a handler can leave behind from [w], whichever query fails. *)
Definition move_effect (w : world) (id code : string) (position : Z)
    (w' : world) : Prop :=
  w' = w
  ∨ ∃ r symbol, move_accepted w id code position r symbol
                ∧ w' = after_move w code position r symbol.

Definition reset_effect (w : world) (id code : string) (w' : world) : Prop :=
  w' = w
  ∨ (bound_to w id code ∧ w' = set_game_rooms (alter cleared code) w).

Definition create_effect (w w' : world) : Prop :=
  w' = w
  ∨ ∃ code, game_rooms w !! code = None
            ∧ w' = set_game_rooms (insert code new_room) w.

Definition join_effect (w : world) (id code name : string) (w' : world) : Prop :=
  w' = w
  ∨ ∃ r stored,
      game_rooms w !! code = Some r
      ∧ length (connected_players code w) < 2
      ∧ varchar 100 name = Some stored
      ∧ (w' = after_upsert w id code stored ∨ w' = after_join w id code stored).

Definition disconnect_effect (w : world) (id : string) (w' : world) : Prop :=
  w' = set_sockets (delete id) w
  ∨ w' = set_sockets (delete id) (set_players (alter offline id) w)
  ∨ ∃ code, roomCode (socket_in w id) = Some code
            ∧ w' = set_sockets (delete id)
                     (set_timers (λ ts, ts ++ [code])
                        (set_players (alter offline id) w)).

Definition without_players (code : string) (w : world) : world :=
  set_players (filter (λ kv : string * player, p_room_code kv.2 ≠ code)) w.

Definition cleanup_effect (w : world) (code : string) (w' : world) : Prop :=
  w' = w
  ∨ (connected_players code w = []
     ∧ (w' = without_players code w
        ∨ w' = set_game_rooms (delete code) (without_players code w))).

End Spec.

Import Spec.

(** ** Room codes *)

Module Codes.

Definition chars : string := "ABCDEFGHIJKLMNOPQRSTUVWXYZ0123456789".

(** [s.charAt(i)]: the empty string when [i] is out of range. *)
Definition charAt (s : string) (i : nat) : string :=
  match String.get i s with
  | Some a => String a ""
  | None => ""
  end.

(** The [for (let i = 0; i < 6; i++)] loop of [generateRoomCode], with
    [remaining] iterations to go. [draw i] is the value of
    [Math.floor(Math.random() * chars.length)] at iteration [i]: the random
    source is the only part left abstract. *)
Fixpoint generateRoomCode_loop (draw : nat → nat) (i remaining : nat)
    (result : string) : string :=
  match remaining with
  | O => result
  | S remaining =>
      generateRoomCode_loop draw (S i) remaining (result +:+ charAt chars (draw i))
  end.

Definition generateRoomCode (draw : nat → nat) : string :=
  generateRoomCode_loop draw 0 6 "".

(** Every character of [s] is one of [chars]. *)
Definition over_alphabet (s : string) : Prop :=
  Forall (λ a, a ∈ String.list_ascii_of_string chars) (String.list_ascii_of_string s).

End Codes.

(** ** The browser client ([public/script.js]) *)

(** The part of the client that decides what is sent and what is shown;
    the DOM updates themselves are left out. *)
Module Client.

(** The global [gameState]. [lastMove] is the key that the spread of a
    [game-updated] payload adds to it. *)
Record gameState := {
  roomCode : option string;
  players : list (string * player);
  currentPlayer : string;
  board : list string;
  gameStatus : string;
  winner : option string;
  playerSymbol : option string;
  isMyTurn : bool;
  playerName : string;
  lastMove : option (Z * string) }.

Definition initial : gameState :=
  {| roomCode := None; players := []; currentPlayer := "X";
     board := replicate 9 ""; gameStatus := "waiting"; winner := None;
     playerSymbol := None; isMyTurn := false; playerName := "Player";
     lastMove := None |}.

(** [gameState = { ...gameState, ...data }] for a payload of the server:
    [room-joined] and [game-reset] payloads have no [lastMove] key. *)
Definition merge (g : gameState) (data : Store.gameState) : gameState :=
  {| roomCode := Some (gs_roomCode data);
     players := gs_players data;
     currentPlayer := gs_currentPlayer data;
     board := gs_board data;
     gameStatus := gs_gameStatus data;
     winner := gs_winner data;
     playerSymbol := playerSymbol g;
     isMyTurn := isMyTurn g;
     playerName := playerName g;
     lastMove := match gs_lastMove data with
                 | Some mv => Some mv
                 | None => lastMove g
                 end |}.

(** The [socket.on(..)] handlers, as far as [gameState] goes. *)
Definition receive (g : gameState) (m : message) : gameState :=
  match m with
  | room_joined data => merge g data
  | game_updated data => merge g data
  | game_reset data => merge g data
  | player_info symbol turn =>
      {| roomCode := roomCode g; players := players g;
         currentPlayer := currentPlayer g; board := board g;
         gameStatus := gameStatus g; winner := winner g;
         playerSymbol := Some symbol; isMyTurn := turn;
         playerName := playerName g; lastMove := lastMove g |}
  | player_disconnected _ _ => g
  | error _ => g
  end.

(** What a connection [id] that has joined room [code] receives of the
    messages of one handler run, in order. *)
Definition addressed (id code : string) (tm : target * message) : bool :=
  match tm.1 with
  | ToSocket id' => bool_decide (id' = id)
  | ToRoom code' => bool_decide (code' = code)
  | ToOthers code' id' => bool_decide (code' = code) && negb (bool_decide (id' = id))
  end.

Definition deliver (id code : string) (g : gameState)
    (ms : list (target * message)) : gameState :=
  foldl (λ g tm, if addressed id code tm then receive g tm.2 else g) g ms.

(** [makeMove(index)]: the payload of the [make-move] it emits, if any. *)
Definition makeMove (g : gameState) (index : nat) : option (option string * Z) :=
  if negb (strict_eq (board g !! index) (Some "")) then None
  else if negb (String.eqb (gameStatus g) "playing") then None
  else if negb (isMyTurn g) then None
  else Some (roomCode g, Z.of_nat index).

(** [resetGame()]: the payload of the [reset-game] it emits. *)
Definition resetGame (g : gameState) : option string := roomCode g.

(** [shouldDisable] of [updateBoardDisplay] for the button of cell [index]. *)
Definition shouldDisable (g : gameState) (index : nat) : bool :=
  negb (strict_eq (board g !! index) (Some ""))
  || negb (String.eqb (gameStatus g) "playing")
  || negb (isMyTurn g).

(** A value interpolated in a template literal. *)
Definition interpolate (v : option string) : string :=
  match v with
  | Some s => s
  | None => "null"
  end.

(** [updateStatusDisplay]: whether [game-controls] is shown, and the text
    and class given to [updateGameStatus], if a text was chosen. *)
Definition updateStatusDisplay (g : gameState) : bool * option (string * string) :=
  if String.eqb (gameStatus g) "waiting" then
    (false, Some ("Waiting for opponent...", "status-waiting"))
  else if String.eqb (gameStatus g) "playing" then
    if isMyTurn g then
      (false, Some ("Your Turn (" +:+ interpolate (playerSymbol g) +:+ ")",
                    "status-my-turn"))
    else
      let opponentSymbol :=
        if strict_eq (playerSymbol g) (Some "X") then "O" else "X" in
      (false, Some ("Opponent's Turn (" +:+ opponentSymbol +:+ ")",
                    "status-opponent-turn"))
  else if String.eqb (gameStatus g) "finished" then
    if strict_eq (winner g) (Some "draw") || strict_eq (winner g) None then
      (true, Some ("It's a Draw! 🤝", "status-finished"))
    else if strict_eq (winner g) (playerSymbol g) then
      (true, Some ("You Won! 🎉", "status-finished status-won"))
    else
      (true, Some ("You Lost! 😔", "status-finished status-lost"))
  else (false, None).

End Client.

(** ** Vocabulary of the invariants *)

Module Shape.

Definition is_symbol (s : string) : Prop := s = "X" ∨ s = "O".

Definition is_cell (cell : string) : Prop := cell = "" ∨ cell = "X" ∨ cell = "O".

(** The values the columns of a room take. *)
Definition well_shaped (r : room) : Prop :=
  String.length (board r) = 9
  ∧ Forall is_cell (boardToArray (board r))
  ∧ is_symbol (current_player r)
  ∧ (game_status r = "waiting" ∨ game_status r = "playing"
     ∨ game_status r = "finished")
  ∧ (winner r = None ∨ winner r = Some "X" ∨ winner r = Some "O").

(** A room in which no game has started. *)
Definition untouched (r : room) : Prop :=
  board r = "         " ∧ current_player r = "X" ∧ winner r = None
  ∧ player2_id r = None.


(** The room a request is about. *)
Definition concerns (req : request) (w : world) (code : string) : Prop :=
  match req with
  | JoinRoom _ roomCode _ => roomCode = code
  | MakeMove _ roomCode _ => roomCode = code
  | ResetGame _ roomCode => roomCode = code
  | Timeout n => timers w !! n = Some code
  | CreateRoom _ | GetRoom _ | Connection _ | Disconnect _ => False
  end.

End Shape.

Import Shape.

(** ** Vocabulary of the client's view *)

Module View.




(** The client state [g] of connection [id] shows room [code] as it is
    stored in [w]; the rows of [players] are shown in some order. *)
Definition mirrors (w : world) (id code : string) (g : Client.gameState) : Prop :=
  ∃ r,
    game_rooms w !! code = Some r
    ∧ Client.roomCode g = Some code
    ∧ Client.board g = boardToArray (board r)
    ∧ Client.currentPlayer g = current_player r
    ∧ Client.gameStatus g = game_status r
    ∧ Client.winner g = winner r
    ∧ Client.players g ≡ₚ connected_players code w
    ∧ Client.playerSymbol g = playerSymbol (socket_in w id)
    ∧ (Client.isMyTurn g = true
       ↔ playerSymbol (socket_in w id) = Some (current_player r)
         ∧ game_status r = "playing").


(** What the client shows for a finished room, from the evaluation of its
    board. *)
Definition verdict (result : option string) (mine : option string) : string * string :=
  if strict_eq result (Some "draw") then ("It's a Draw! 🤝", "status-finished")
  else if strict_eq result mine then ("You Won! 🎉", "status-finished status-won")
  else ("You Lost! 😔", "status-finished status-lost").

(** A client of the lobby's first player, up to date. *)
Definition lobby_view : Client.gameState :=
  {| Client.roomCode := Some "ABC123";
     Client.players := connected_players "ABC123" lobby;
     Client.currentPlayer := "X";
     Client.board := replicate 9 "";
     Client.gameStatus := "playing";
     Client.winner := None;
     Client.playerSymbol := Some "X";
     Client.isMyTurn := true;
     Client.playerName := "Alice";
     Client.lastMove := None |}.

(** Two games side by side: the lobby, and a second room in which [c] and
    [d] have joined and [c] has played the first cell. *)
Definition two_games : world :=
  steps lobby
    [ (CreateRoom (λ _, "XYZ789"), None);
      (Connection "c", None); (Connection "d", None);
      (JoinRoom "c" "XYZ789" "Carol", None);
      (JoinRoom "d" "XYZ789" "Dave", None);
      (MakeMove "c" "XYZ789" 0, None) ]%Z.

Definition second_game : room :=
  {| player1_id := Some "c"; player2_id := Some "d"; current_player := "O";
     board := "X        "; game_status := "playing"; winner := None |}.



(** The number of cells of a board array that hold [s]. *)
Definition marks (s : string) (boardArray : list string) : nat :=
  length (filter (λ cell, cell = s) boardArray).

(** X has as many marks as O when X is to move and one more when O is. *)
Definition balanced (r : room) : Prop :=
  marks "X" (boardToArray (board r))
  = marks "O" (boardToArray (board r))
    + (if String.eqb (current_player r) "O" then 1 else 0).

End View.

Import View.

(** ** Handlers that overlap *)

(** The handlers are [async] functions: each [await pool.query(..)] hands
    control back to the event loop, so that the handlers of events that
    arrive together run interleaved, statement by statement. Here the
    handlers of the three game events are written once more, as the
    sequence of statements they send to the pool, and run by a machine that
    executes one statement or resumes one handler at a time. The other
    events (the two routes, connection, disconnect, the cleanup timer) are
    taken as a whole by [step], when no handler is in flight: the runs in
    which one of those overlaps a handler are left out. *)
Module Async.

(** The statements the three handlers send, with what they resolve to. *)
Inductive sql : Type → Type :=
| SelectRoom (code : string) : sql (option room)
| SelectConnected (code : string) : sql (list (string * player))
| UpsertPlayer (id code symbol name : string) : sql unit
| UpdateRoom (code : string) (f : room → room) : sql unit.

(** What the store does with a statement: the value and the new store, or
    nothing when the statement is refused. *)
Definition perform {X} (q : sql X) (w : world) : option (X * world) :=
  match q with
  | SelectRoom code => Some (game_rooms w !! code, w)
  | SelectConnected code => Some (connected_players code w, w)
  | UpsertPlayer id code symbol name =>
      match varchar 100 name with
      | Some stored =>
          Some (tt, set_players (insert id
                  {| p_room_code := code; symbol := symbol; name := stored;
                     connected := true |}) w)
      | None => None
      end
  | UpdateRoom code f => Some (tt, set_game_rooms (alter f code) w)
  end.

(** What a handler does between two awaits. *)
Inductive js : Type → Type :=
| Emit (t : target) (m : message) : js unit     (* .emit(..) *)
| Fields (id : string) : js socket              (* reads socket.roomCode, socket.playerSymbol *)
| Assign (id : string) (s : socket) : js unit   (* socket.roomCode = ..; socket.playerSymbol = .. *)
| Sockets : js (gmap string socket).            (* io.sockets.sockets *)

(** [ms] is what has been sent so far. *)
Definition effect {X} (e : js X) (w : world) (ms : list (target * message))
  : X * world * list (target * message) :=
  match e with
  | Emit t m => (tt, w, ms ++ [(t, m)])
  | Fields id => (socket_in w id, w, ms)
  | Assign id s => (tt, set_sockets (insert id s) w, ms)
  | Sockets => (sockets w, w, ms)
  end.

(** A handler from some point to its end: it returns, throws, awaits a
    statement ([k None] is the continuation when the promise is rejected),
    or does something synchronous. *)
Inductive prog (A : Type) : Type :=
| Ret (a : A)
| Throw
| Await {X : Type} (q : sql X) (k : option X → prog A)
| Sync {X : Type} (e : js X) (k : X → prog A).

Arguments Ret {A} a.
Arguments Throw {A}.
Arguments Await {A X} q k.
Arguments Sync {A X} e k.

Fixpoint bind {A B} (p : prog A) (k : A → prog B) : prog B :=
  match p with
  | Ret a => k a
  | Throw => Throw
  | Await q h => Await q (λ r, bind (h r) k)
  | Sync e h => Sync e (λ x, bind (h x) k)
  end.

Fixpoint try_catch {A} (body handler : prog A) : prog A :=
  match body with
  | Ret a => Ret a
  | Throw => handler
  | Await q k => Await q (λ r, try_catch (k r) handler)
  | Sync e k => Sync e (λ x, try_catch (k x) handler)
  end.

Declare Scope prog_scope.
Delimit Scope prog_scope with prog.
Notation "x <- m ;; k" := (bind m (λ x, k))
  (at level 100, m at next level, k at level 200) : prog_scope.
Notation "m ;; k" := (bind m (λ _, k))
  (at level 100, k at level 200) : prog_scope.
Local Open Scope prog_scope.

(** [await pool.query(q)] *)
Definition query {X} (q : sql X) : prog X :=
  Await q (λ r, match r with Some x => Ret x | None => Throw end).

Definition emit (t : target) (m : message) : prog unit := Sync (Emit t m) Ret.

Definition first_row {A} (rows : option A) : prog A :=
  match rows with
  | Some r => Ret r
  | None => Throw
  end.

Fixpoint forEach {A} (f : A → prog unit) (rows : list A) : prog unit :=
  match rows with
  | [] => Ret tt
  | row :: rest => f row ;; forEach f rest
  end.

Definition sendPlayerInfo (roomCode : string) : prog unit :=
  roomResult <- query (SelectRoom roomCode) ;;
  match roomResult with
  | None => Ret tt
  | Some room =>
      players <- query (SelectConnected roomCode) ;;
      open <- Sync Sockets Ret ;;
      forEach (λ '(socket_id, player),
        if open !! socket_id is Some _ then
          emit (ToSocket socket_id)
            (player_info (symbol player)
               (bool_decide (symbol player = current_player room)
                && bool_decide (game_status room = "playing")))
        else Ret tt) players
  end.

Definition join_room (id roomCode playerName : string) : prog unit :=
  try_catch
    (roomResult <- query (SelectRoom roomCode) ;;
     match roomResult with
     | None => emit (ToSocket id) (error "Room not found")
     | Some room =>
         playersResult <- query (SelectConnected roomCode) ;;
         if decide (2 ≤ length playersResult) then
           emit (ToSocket id) (error "Room is full")
         else
           let isFirstPlayer := bool_decide (length playersResult = 0) in
           let symbol := if isFirstPlayer then "X" else "O" in
           query (UpsertPlayer id roomCode symbol playerName) ;;
           Sync (Assign id
             {| roomCode := Some roomCode; playerSymbol := Some symbol |}) Ret ;;
           (if isFirstPlayer then
              query (UpdateRoom roomCode (seat_first id))
            else
              query (UpdateRoom roomCode (seat_second id))) ;;
           updatedRoom <- query (SelectRoom roomCode) ;;
           allPlayers <- query (SelectConnected roomCode) ;;
           updated <- first_row updatedRoom ;;
           emit (ToRoom roomCode) (room_joined
             {| gs_roomCode := roomCode;
                gs_board := boardToArray (board updated);
                gs_currentPlayer := current_player updated;
                gs_gameStatus := game_status updated;
                gs_winner := winner updated;
                gs_players := allPlayers;
                gs_lastMove := None |}) ;;
           sendPlayerInfo roomCode
     end)
    (emit (ToSocket id) (error "Failed to join room")).

(** [socket.roomCode] is read when the event arrives; [socket.playerSymbol]
    is read after the first SELECT, for the turn test and the move, and once
    more for [lastMove] when the broadcast is built. The field is only ever
    assigned a symbol, so it is still set at the last read. *)
Definition make_move (id roomCode : string) (position : Z) : prog unit :=
  try_catch
    (socket <- Sync (Fields id) Ret ;;
     if not_in_room socket roomCode then
       emit (ToSocket id) (error "Not in this room")
     else
       roomResult <- query (SelectRoom roomCode) ;;
       match roomResult with
       | None => emit (ToSocket id) (error "Room not found")
       | Some room =>
           if negb (String.eqb (game_status room) "playing") then
             emit (ToSocket id) (error "Game not in progress")
           else
             current <- Sync (Fields id) Ret ;;
             match playerSymbol current with
             | None => emit (ToSocket id) (error "Not your turn")
             | Some symbol =>
                 if negb (String.eqb (current_player room) symbol) then
                   emit (ToSocket id) (error "Not your turn")
                 else if invalid_move (boardToArray (board room)) position then
                   emit (ToSocket id) (error "Invalid move")
                 else
                   query (UpdateRoom roomCode (moved room position symbol)) ;;
                   updatedRoom <- query (SelectRoom roomCode) ;;
                   players <- query (SelectConnected roomCode) ;;
                   updated <- first_row updatedRoom ;;
                   latest <- Sync (Fields id) Ret ;;
                   emit (ToRoom roomCode) (game_updated
                     {| gs_roomCode := roomCode;
                        gs_board := boardToArray (board updated);
                        gs_currentPlayer := current_player updated;
                        gs_gameStatus := game_status updated;
                        gs_winner := winner updated;
                        gs_players := players;
                        gs_lastMove :=
                          Some (position, default symbol (playerSymbol latest)) |}) ;;
                   sendPlayerInfo roomCode
             end
       end)
    (emit (ToSocket id) (error "Failed to make move")).

Definition reset_game (id roomCode : string) : prog unit :=
  try_catch
    (socket <- Sync (Fields id) Ret ;;
     if not_in_room socket roomCode then
       emit (ToSocket id) (error "Not in this room")
     else
       query (UpdateRoom roomCode cleared) ;;
       updatedRoom <- query (SelectRoom roomCode) ;;
       players <- query (SelectConnected roomCode) ;;
       updated <- first_row updatedRoom ;;
       emit (ToRoom roomCode) (game_reset
         {| gs_roomCode := roomCode;
            gs_board := boardToArray (board updated);
            gs_currentPlayer := current_player updated;
            gs_gameStatus := game_status updated;
            gs_winner := None;
            gs_players := players;
            gs_lastMove := None |}) ;;
       sendPlayerInfo roomCode)
    (emit (ToSocket id) (error "Failed to reset game")).

(** *** A handler on its own *)

(** The handler runs from start to end with nothing in between; the store
    rejects the statement on which the fault of the context is due. *)
Fixpoint atomic {A} (p : prog A) (c : ctx) : option A * ctx :=
  match p with
  | Ret a => (Some a, c)
  | Throw => (None, c)
  | Await q k =>
      match fault c with
      | Some O => atomic (k None) c
      | remaining =>
          match perform q (now c) with
          | Some (x, w) =>
              atomic (k (Some x))
                {| now := w; sent := sent c; fault := Nat.pred <$> remaining |}
          | None =>
              atomic (k None)
                {| now := now c; sent := sent c; fault := Nat.pred <$> remaining |}
          end
      end
  | Sync e k =>
      let '(x, w, ms) := effect e (now c) (sent c) in
      atomic (k x) {| now := w; sent := ms; fault := fault c |}
  end.

(** *** The machine *)

(** A handler in flight: its statement is with the pool, or the promise is
    settled and the rest of the handler waits for its turn on the event
    loop, or the handler is done. *)
Inductive thread :=
| Issued {X : Type} (q : sql X) (k : option X → prog unit)
| Settled (p : prog unit)
| Finished.

Record system := {
  store : world;
  outbox : list (target * message);
  threads : list thread }.

(** The event loop runs a handler up to its next await. *)
Fixpoint advance (p : prog unit) (w : world) (ms : list (target * message))
  : thread * world * list (target * message) :=
  match p with
  | Ret _ => (Finished, w, ms)
  | Throw => (Finished, w, ms)
  | Await q k => (Issued q k, w, ms)
  | Sync e k =>
      let '(x, w', ms') := effect e w ms in
      advance (k x) w' ms'
  end.

Definition handler (req : request) : option (string * prog unit) :=
  match req with
  | JoinRoom id roomCode playerName => Some (id, join_room id roomCode playerName)
  | MakeMove id roomCode position => Some (id, make_move id roomCode position)
  | ResetGame id roomCode => Some (id, reset_game id roomCode)
  | _ => None
  end.

Definition idle (sys : system) : bool :=
  forallb (λ t, if t is Finished then true else false) (threads sys).

(** The socket messages of an event handled as a whole; the answers of the
    two routes are not among them. *)
Definition sends (w : world) (ev : request * option nat) : list (target * message) :=
  let '(req, fault) := ev in
  match req with
  | JoinRoom id roomCode playerName =>
      if is_open id w then messages_of (Server.join_room id roomCode playerName) fault w
      else []
  | MakeMove id roomCode position =>
      if is_open id w then messages_of (Server.make_move id roomCode position) fault w
      else []
  | ResetGame id roomCode =>
      if is_open id w then messages_of (Server.reset_game id roomCode) fault w
      else []
  | Disconnect id =>
      if is_open id w then messages_of (disconnect id) fault w else []
  | _ => []
  end.

(** What can happen next: an event is handled as a whole (when no handler
    is in flight); a game event is dispatched and its handler runs to its
    first await; the store executes the statement of handler [i], or
    rejects it; the event loop resumes handler [i]. *)
Inductive action :=
| Whole (ev : request * option nat)
| Begin (req : request)
| Execute (i : nat) (rejected : bool)
| Resume (i : nat).

Definition act (sys : system) (a : action) : system :=
  match a with
  | Whole ev =>
      if idle sys then
        {| store := step (store sys) ev;
           outbox := outbox sys ++ sends (store sys) ev;
           threads := threads sys |}
      else sys
  | Begin req =>
      match handler req with
      | Some (id, p) =>
          if is_open id (store sys) then
            let '(t, w, ms) := advance p (store sys) (outbox sys) in
            {| store := w; outbox := ms; threads := threads sys ++ [t] |}
          else sys
      | None => sys
      end
  | Execute i rejected =>
      match threads sys !! i with
      | Some (Issued q k) =>
          if rejected then
            {| store := store sys; outbox := outbox sys;
               threads := <[i := Settled (k None)]> (threads sys) |}
          else
            match perform q (store sys) with
            | Some (x, w) =>
                {| store := w; outbox := outbox sys;
                   threads := <[i := Settled (k (Some x))]> (threads sys) |}
            | None =>
                {| store := store sys; outbox := outbox sys;
                   threads := <[i := Settled (k None)]> (threads sys) |}
            end
      | _ => sys
      end
  | Resume i =>
      match threads sys !! i with
      | Some (Settled p) =>
          let '(t, w, ms) := advance p (store sys) (outbox sys) in
          {| store := w; outbox := ms; threads := <[i := t]> (threads sys) |}
      | _ => sys
      end
  end.

Definition acts (sys : system) (schedule : list action) : system :=
  foldl act sys schedule.

Definition boot : system := {| store := initial; outbox := []; threads := [] |}.


(** Every one of the [n] handlers in flight takes one turn, in the order of
    arrival: their statements are executed, then they are resumed. *)
Definition round (n : nat) : list action :=
  ((λ i, Execute i false) <$> seq 0 n) ++ (Resume <$> seq 0 n).

(** The events [reqs] arrive together at a server with no handler in
    flight, and their handlers proceed in step for [rounds] rounds. *)
Definition arrive_together (sys : system) (reqs : list request) (rounds : nat)
  : system :=
  acts sys ((Begin <$> reqs) ++ mjoin (replicate rounds (round (length reqs)))).

(** A room has been created and three connections are open. *)
Definition fresh : system :=
  acts boot
    [ Whole (CreateRoom (λ _, "ABC123"), None);
      Whole (Connection "a", None); Whole (Connection "b", None);
      Whole (Connection "c", None) ].

(** The joins of [a] and [b] arrive together; so do those of [a], [b]
    and [c]. *)
Definition two_joins : system :=
  arrive_together fresh
    [ JoinRoom "a" "ABC123" "Alice"; JoinRoom "b" "ABC123" "Bob" ] 8.

Definition three_joins : system :=
  arrive_together fresh
    [ JoinRoom "a" "ABC123" "Alice"; JoinRoom "b" "ABC123" "Bob";
      JoinRoom "c" "ABC123" "Carol" ] 8.

(** The lobby: [a] and [b] have joined one after the other. Then two moves
    of [a] arrive together, on cells 0 and 1. *)
Definition seated : system :=
  acts boot
    [ Whole (CreateRoom (λ _, "ABC123"), None);
      Whole (Connection "a", None); Whole (Connection "b", None);
      Whole (JoinRoom "a" "ABC123" "Alice", None);
      Whole (JoinRoom "b" "ABC123" "Bob", None) ].

Definition two_moves : system :=
  arrive_together seated [ MakeMove "a" "ABC123" 0; MakeMove "a" "ABC123" 1 ]%Z 6.

(** A name of 101 characters. *)
Definition long_name : string := Nat.iter 101 (String.append "x") "".


End Async.

(** * Properties *)

(** ** The board helpers *)

Lemma winPatterns_standard : winPatterns = standard_triples.
Proof. reflexivity. Qed.

Lemma truthy_Some (v : option string) :
  truthy v = true ↔ ∃ s, v = Some s ∧ s ≠ "".
Proof.
  destruct v as [s|]; simpl.
  - rewrite negb_true_iff. split.
    + intros H. exists s. split; [done|]. intros ->. discriminate.
    + intros (s' & [= <-] & Hne). destruct (String.eqb_spec s ""); done.
  - split; [done|]. intros (? & ? & _). done.
Qed.

Lemma completes_uniform (board : list string) pattern :
  completes board pattern = true ↔ uniform board pattern.
Proof.
  destruct pattern as [[a b] c]. unfold completes, uniform, uniform_with, strict_eq. simpl.
  rewrite !andb_true_iff, !bool_decide_eq_true, truthy_Some. split.
  - intros [[(s & Ha & Hne) Hb] Hc]. exists s. rewrite <- Hb, <- Hc. done.
  - intros (s & Hne & Ha & Hb & Hc). rewrite Ha, Hb, Hc. eauto.
Qed.

Lemma completes_uniform_with (board : list string) pattern :
  completes board pattern = true →
  ∃ s, board !! pattern.1.1 = Some s ∧ uniform_with board pattern s.
Proof.
  intros (s & Hs)%completes_uniform. exists s. split; [apply Hs | done].
Qed.

Lemma uniform_with_fun (board : list string) pattern s t :
  uniform_with board pattern s → uniform_with board pattern t → s = t.
Proof. intros (_ & H1 & _) (_ & H2 & _). congruence. Qed.

Lemma forallb_all_filled (board : list string) :
  forallb (λ cell, negb (String.eqb cell "")) board = true ↔ all_filled board.
Proof.
  unfold all_filled. rewrite forallb_forall, Forall_forall.
  split; intros H cell Hin; specialize (H cell).
  - apply list_elem_of_In in Hin. specialize (H Hin).
    intros ->. discriminate.
  - apply list_elem_of_In in Hin. specialize (H Hin).
    destruct (String.eqb_spec cell ""); done.
Qed.

(** The loop, characterised over an arbitrary list of patterns. *)
Lemma checkWinner_from_cases (board : list string) patterns :
  (∃ s, first_uniform board patterns s ∧ checkWinner_from board patterns = Some s)
  ∨ (Forall (λ p, ¬ uniform board p) patterns
     ∧ checkWinner_from board patterns
       = if forallb (λ cell, negb (String.eqb cell "")) board then Some "draw" else None).
Proof.
  induction patterns as [|p ps IH]; simpl.
  - right. split; [constructor | done].
  - destruct (completes board p) eqn:Hp.
    + left. destruct (completes_uniform_with _ _ Hp) as (s & Hs & Hu).
      exists s. split; [|done]. exists [], p, ps. split_and!; [done|constructor|done].
    + assert (¬ uniform board p) as Hnu.
      { rewrite <- completes_uniform. congruence. }
      destruct IH as [(s & (before & q & after & -> & Hb & Hq) & Hr) | [Hall Hr]].
      * left. exists s. split; [|done].
        exists (p :: before), q, after. split_and!; [done|by constructor|done].
      * right. split; [by constructor | done].
Qed.

Lemma first_uniform_fun (board : list string) patterns s t :
  first_uniform board patterns s → first_uniform board patterns t → s = t.
Proof.
  revert s t. induction patterns as [|p ps IH]; intros s t.
  - intros (b & ? & ? & H & _). by destruct b.
  - intros (b1 & p1 & a1 & E1 & F1 & U1) (b2 & p2 & a2 & E2 & F2 & U2).
    destruct b1 as [|x1 b1], b2 as [|x2 b2]; simplify_eq/=.
    + eapply uniform_with_fun; eauto.
    + inversion F2; subst. exfalso.
      match goal with H : ¬ uniform _ _ |- _ => apply H end. by exists s.
    + inversion F1; subst. exfalso.
      match goal with H : ¬ uniform _ _ |- _ => apply H end. by exists t.
    + inversion F1; inversion F2; subst.
      apply IH; [by exists b1, p1, a1 | by exists b2, p2, a2].
Qed.

Lemma first_uniform_exists (board : list string) patterns :
  (∃ s, first_uniform board patterns s) ↔ ∃ p, p ∈ patterns ∧ uniform board p.
Proof.
  split.
  - intros (s & b & p & a & -> & _ & Hu). exists p. split; [set_solver | by exists s].
  - intros (p & Hin & Hu).
    destruct (checkWinner_from_cases board patterns) as [(s & Hf & _) | [Hall _]].
    + by exists s.
    + rewrite Forall_forall in Hall. exfalso. by apply (Hall p).
Qed.

Lemma uniform_cell_not_draw (board : list string) pattern s :
  cells_ok board → uniform_with board pattern s → s ≠ "draw".
Proof.
  intros Hok (_ & Ha & _) ->.
  unfold cells_ok in Hok. rewrite Forall_lookup in Hok.
  specialize (Hok _ _ Ha). simpl in Hok. lia.
Qed.

(** C1. [checkWinner] returns a winner symbol exactly when one of the 8
    standard triples (3 rows, 3 columns, 2 diagonals) is uniform and
    non-empty, and the symbol is that of the first such triple in pattern
    order; it returns ['draw'] exactly when no triple is uniform and every
    cell is non-empty; it returns [null] exactly in the remaining case. A
    winner symbol is a result other than ['draw'], which no cell can hold.
    The statement holds for a board of any length, so for the 9-cell ones. *)
Theorem checkWinner_spec (board : list string) :
  cells_ok board →
  (∀ s, checkWinner board = Some s ∧ s ≠ "draw"
        ↔ first_uniform board standard_triples s)
  ∧ ((∃ s, checkWinner board = Some s ∧ s ≠ "draw")
     ↔ ∃ p, p ∈ standard_triples ∧ uniform board p)
  ∧ (checkWinner board = Some "draw"
     ↔ (¬ ∃ p, p ∈ standard_triples ∧ uniform board p) ∧ all_filled board)
  ∧ (checkWinner board = None
     ↔ (¬ ∃ p, p ∈ standard_triples ∧ uniform board p) ∧ ¬ all_filled board).
Proof.
  intros Hok. rewrite <- winPatterns_standard. unfold checkWinner.
  pose proof (forallb_all_filled board) as Hfill.
  assert (∀ s, first_uniform board winPatterns s → s ≠ "draw") as Hnd.
  { intros s (? & p & ? & _ & _ & Hu). eauto using uniform_cell_not_draw. }
  assert (Forall (λ p, ¬ uniform board p) winPatterns
          ↔ ¬ ∃ p, p ∈ winPatterns ∧ uniform board p) as Hnone.
  { rewrite Forall_forall. split.
    - intros H (p & Hin & Hu). by apply (H p).
    - intros H p Hin Hu. apply H. by exists p. }
  destruct (checkWinner_from_cases board winPatterns)
    as [(s & Hf & Hr) | [Hall Hr]]; rewrite Hr.
  - assert (∃ p, p ∈ winPatterns ∧ uniform board p) as Hex.
    { apply first_uniform_exists. by exists s. }
    split_and!.
    + intros t. split.
      * intros [[= <-] _]. done.
      * intros Ht. rewrite (first_uniform_fun _ _ _ _ Ht Hf). eauto.
    + split; [done|]. intros _. exists s. eauto.
    + split; [|tauto]. intros [= ->]. by destruct (Hnd _ Hf).
    + split; [done | tauto].
  - assert (¬ ∃ p, p ∈ winPatterns ∧ uniform board p) as Hno by by apply Hnone.
    assert (∀ t, ¬ first_uniform board winPatterns t) as Hnf.
    { intros t Ht. apply Hno, first_uniform_exists. by exists t. }
    destruct (forallb _ board) eqn:Hb.
    + assert (all_filled board) by by apply Hfill.
      split_and!.
      * intros t. split; [|by intros ?%Hnf]. intros [[= <-] ?]. done.
      * split; [|done]. intros (t & [= <-] & ?). done.
      * done.
      * split; [done | tauto].
    + assert (¬ all_filled board).
      { rewrite <- Hfill. congruence. }
      split_and!.
      * intros t. split; [|by intros ?%Hnf]. intros [? _]. done.
      * split; [|done]. intros (t & ? & _). done.
      * split; [done | tauto].
      * done.
Qed.

Lemma checkWinner_spec_witness :
  checkWinner ["X"; "O"; "X"; "X"; "O"; "O"; "O"; "X"; "X"] = Some "draw"
  ↔ (¬ ∃ p, p ∈ standard_triples
            ∧ uniform ["X"; "O"; "X"; "X"; "O"; "O"; "O"; "X"; "X"] p)
    ∧ all_filled ["X"; "O"; "X"; "X"; "O"; "O"; "O"; "X"; "X"].
Proof.
  apply (checkWinner_spec ["X"; "O"; "X"; "X"; "O"; "O"; "O"; "X"; "X"]).
  unfold cells_ok. repeat constructor.
Defined.

(** ** Evaluating handlers when the store does not fail *)

Section Eval.
Context {B : Type}.
Implicit Types (w : world) (ms : list (target * message)).

Lemma bind_socket_of id (k : socket → M B) c :
  bind (socket_of id) k c = k (socket_in (now c) id) c.
Proof. done. Qed.

Lemma bind_gets {A} (f : world → A) (k : A → M B) c :
  bind (gets f) k c = k (f (now c)) c.
Proof. done. Qed.

Lemma bind_emit t m (k : unit → M B) c :
  bind (emit t m) k c
  = k tt {| now := now c; sent := sent c ++ [(t, m)]; fault := fault c |}.
Proof. done. Qed.

Lemma bind_modify f (k : unit → M B) c :
  bind (modify f) k c
  = k tt {| now := f (now c); sent := sent c; fault := fault c |}.
Proof. done. Qed.

Lemma bind_first_row {A} (r : A) (k : A → M B) c :
  bind (first_row (Some r)) k c = k r c.
Proof. done. Qed.

Lemma bind_select_room code (k : option room → M B) w ms :
  bind (select_room code) k (Ctx w ms) = k (game_rooms w !! code) (Ctx w ms).
Proof. done. Qed.

Lemma bind_select_connected code (k : list (string * player) → M B) w ms :
  bind (select_connected code) k (Ctx w ms)
  = k (connected_players code w) (Ctx w ms).
Proof. done. Qed.

Lemma bind_update_room code f (k : unit → M B) w ms :
  bind (update_room code f) k (Ctx w ms)
  = k tt (Ctx (set_game_rooms (alter f code) w) ms).
Proof. done. Qed.

Lemma bind_upsert_player id code symbol name stored (k : unit → M B) w ms :
  varchar 100 name = Some stored →
  bind (upsert_player id code symbol name) k (Ctx w ms)
  = k tt (Ctx (set_players (insert id
       {| p_room_code := code; symbol := symbol; name := stored;
          connected := true |}) w) ms).
Proof. intros Hname. unfold upsert_player. by rewrite Hname. Qed.

Lemma bind_upsert_player_refused id code symbol name (k : unit → M B) w ms :
  varchar 100 name = None →
  bind (upsert_player id code symbol name) k (Ctx w ms) = (None, Ctx w ms).
Proof. intros Hname. unfold upsert_player. by rewrite Hname. Qed.

Lemma bind_mark_disconnected id (k : unit → M B) w ms :
  bind (mark_disconnected id) k (Ctx w ms)
  = k tt (Ctx (set_players (alter (λ p,
       {| p_room_code := p_room_code p; symbol := symbol p; name := name p;
          connected := false |}) id) w) ms).
Proof. done. Qed.

Lemma bind_delete_players code (k : unit → M B) w ms :
  bind (delete_players code) k (Ctx w ms)
  = k tt (Ctx (set_players
       (filter (λ kv : string * player, p_room_code kv.2 ≠ code)) w) ms).
Proof. done. Qed.

End Eval.

Ltac eval_step :=
  first
    [ rewrite bind_socket_of | rewrite bind_gets | rewrite bind_emit
    | rewrite bind_modify | rewrite bind_first_row | rewrite bind_select_room
    | rewrite bind_select_connected | rewrite bind_update_room
    | erewrite bind_upsert_player by eassumption
    | rewrite bind_mark_disconnected
    | rewrite bind_delete_players ];
  cbv beta; cbn [now sent fault].

Lemma game_rooms_set f w : game_rooms (set_game_rooms f w) = f (game_rooms w).
Proof. done. Qed.

Lemma connected_players_set_rooms code f w :
  connected_players code (set_game_rooms f w) = connected_players code w.
Proof. done. Qed.

Lemma forEach_infos (r : room) (open : gmap string socket) rows w ms :
  forEach (λ '(socket_id, player),
        if open !! socket_id is Some _ then
          emit (ToSocket socket_id)
            (player_info (symbol player)
               (bool_decide (symbol player = current_player r)
                && bool_decide (game_status r = "playing")))
        else ret tt) rows (Ctx w ms)
  = (Some tt, Ctx w (ms ++ player_infos r open rows)).
Proof.
  revert ms. induction rows as [|[id p] rows IH]; intros ms; simpl.
  - unfold ret. by rewrite app_nil_r.
  - unfold bind at 1. destruct (open !! id); simpl.
    + rewrite IH. by rewrite <- app_assoc.
    + by rewrite IH.
Qed.

Lemma sendPlayerInfo_ok code w ms :
  sendPlayerInfo code (Ctx w ms) = (Some tt, Ctx w (ms ++ infos_of code w)).
Proof.
  unfold sendPlayerInfo, infos_of. eval_step.
  destruct (game_rooms w !! code).
  - do 2 eval_step. by rewrite forEach_infos.
  - unfold ret. by rewrite app_nil_r.
Qed.

(** ** Moves *)

Lemma not_in_room_bound w id code :
  not_in_room (socket_in w id) code = false ↔ bound_to w id code.
Proof.
  unfold not_in_room, bound_to, strict_eq, truthy.
  rewrite orb_false_iff, !negb_false_iff, bool_decide_eq_true.
  split.
  - intros [H1 H2]. rewrite H2 in H1. split; [done|].
    intros ->. done.
  - intros [-> Hne]. split; [|done]. rewrite negb_true_iff.
    by destruct (String.eqb_spec code "").
Qed.

Lemma not_in_room_unbound w id code :
  not_in_room (socket_in w id) code = true ↔ ¬ bound_to w id code.
Proof.
  rewrite <- not_in_room_bound. by destruct (not_in_room _ _).
Qed.

Lemma invalid_move_false boardArray position :
  invalid_move boardArray position = false
  ↔ (0 ≤ position ≤ 8)%Z ∧ boardArray !! Z.to_nat position = Some "".
Proof.
  unfold invalid_move, strict_eq.
  rewrite !orb_false_iff, negb_false_iff, bool_decide_eq_true.
  rewrite Z.ltb_ge, Z.gtb_ltb, Z.ltb_ge. tauto.
Qed.

Lemma invalid_move_true boardArray position :
  invalid_move boardArray position = true
  ↔ (position < 0)%Z ∨ (8 < position)%Z
    ∨ boardArray !! Z.to_nat position ≠ Some "".
Proof.
  unfold invalid_move, strict_eq.
  rewrite !orb_true_iff, negb_true_iff, bool_decide_eq_false.
  rewrite Z.ltb_lt, Z.gtb_ltb, Z.ltb_lt. tauto.
Qed.

Lemma eqb_playing_false (status : string) :
  status ≠ "playing" → negb (String.eqb status "playing") = true.
Proof. intros H. by destruct (String.eqb_spec status "playing"). Qed.

(** The run of an accepted move. *)
Lemma make_move_accepted w id code position r symbol :
  move_accepted w id code position r symbol →
  run (make_move id code position) None w
  = (Some tt,
     after_move w code position r symbol,
     (ToRoom code,
      game_updated (state_of code (moved r position symbol r)
                      (after_move w code position r symbol)
                      (Some (position, symbol))))
     :: infos_of code (after_move w code position r symbol)).
Proof.
  intros (Hb & Hr & Hs & Hp & Hc & Hpos & Hcell).
  apply not_in_room_bound in Hb.
  assert (invalid_move (boardToArray (board r)) position = false) as Hinv
    by by apply invalid_move_false.
  unfold run, make_move, try_catch, after_move. cbv beta.
  eval_step. rewrite Hb. eval_step. rewrite Hr, Hs, Hp, Hc.
  rewrite !String.eqb_refl. cbn [negb]. rewrite Hinv.
  do 3 eval_step. rewrite game_rooms_set, lookup_alter_eq, Hr.
  cbn [fmap option_fmap option_map].
  do 2 eval_step. by rewrite sendPlayerInfo_ok.
Qed.

(** Every run of [make-move] either sends one error to the mover and
    changes nothing, or is an accepted move. *)
Lemma make_move_cases w id code position :
  (∃ text, run (make_move id code position) None w
           = (Some tt, w, [(ToSocket id, error text)]))
  ∨ (∃ r symbol, move_accepted w id code position r symbol).
Proof.
  destruct (not_in_room (socket_in w id) code) eqn:Hb.
  { left. eexists. unfold run, make_move, try_catch. cbv beta.
    eval_step. by rewrite Hb. }
  destruct (game_rooms w !! code) as [r|] eqn:Hr.
  2: { left. eexists. unfold run, make_move, try_catch. cbv beta.
       eval_step. rewrite Hb. eval_step. by rewrite Hr. }
  destruct (String.eqb_spec (game_status r) "playing") as [Hs|Hs].
  2: { left. eexists. unfold run, make_move, try_catch. cbv beta.
       eval_step. rewrite Hb. eval_step. rewrite Hr.
       by rewrite eqb_playing_false. }
  destruct (playerSymbol (socket_in w id)) as [symbol|] eqn:Hp.
  2: { left. eexists. unfold run, make_move, try_catch. cbv beta.
       eval_step. rewrite Hb. eval_step. by rewrite Hr, Hs, Hp, String.eqb_refl. }
  destruct (String.eqb_spec (current_player r) symbol) as [Hc|Hc].
  2: { left. eexists. unfold run, make_move, try_catch. cbv beta.
       eval_step. rewrite Hb. eval_step. rewrite Hr, Hs, Hp, String.eqb_refl.
       cbn [negb].
       by destruct (String.eqb_spec (current_player r) symbol). }
  destruct (invalid_move (boardToArray (board r)) position) eqn:Hinv.
  { left. eexists. unfold run, make_move, try_catch. cbv beta.
    eval_step. rewrite Hb. eval_step. rewrite Hr, Hs, Hp, Hc.
    rewrite !String.eqb_refl. cbn [negb]. rewrite <- Hc, Hinv. done. }
  right. exists r, symbol.
  apply not_in_room_bound in Hb. apply invalid_move_false in Hinv as [? ?].
  unfold move_accepted. tauto.
Qed.

Lemma applied_accepted w id code position :
  applied w id code position ↔ ∃ r symbol, move_accepted w id code position r symbol.
Proof.
  unfold applied, messages_of. split.
  - intros [state Hin].
    destruct (make_move_cases w id code position) as [[text Hrun]|Hacc]; [|done].
    rewrite Hrun in Hin. simpl in Hin. apply list_elem_of_singleton in Hin.
    discriminate.
  - intros (r & symbol & Hacc). rewrite (make_move_accepted _ _ _ _ _ _ Hacc).
    eexists. simpl. left.
Qed.

(** C6. A rejected move reports one error, to the mover only, and leaves
    the whole world (hence the room's board, currentPlayer, status and
    winner) unchanged. The guards are tried in the order of the handler:
    not bound to the room (NotInRoom); else status not playing
    (GameNotInProgress); else the mover's symbol is not currentPlayer
    (WrongTurn); else position outside [0,8] or cell not empty
    (InvalidMove). *)
Theorem make_move_rejected (w : world) (id code : string) (position : Z) :
  (¬ bound_to w id code →
     run (make_move id code position) None w
     = (Some tt, w, [(ToSocket id, error "Not in this room")]))
  ∧ (∀ r, bound_to w id code → game_rooms w !! code = Some r →
       game_status r ≠ "playing" →
       run (make_move id code position) None w
       = (Some tt, w, [(ToSocket id, error "Game not in progress")]))
  ∧ (∀ r, bound_to w id code → game_rooms w !! code = Some r →
       game_status r = "playing" →
       playerSymbol (socket_in w id) ≠ Some (current_player r) →
       run (make_move id code position) None w
       = (Some tt, w, [(ToSocket id, error "Not your turn")]))
  ∧ (∀ r, bound_to w id code → game_rooms w !! code = Some r →
       game_status r = "playing" →
       playerSymbol (socket_in w id) = Some (current_player r) →
       (position < 0 ∨ 8 < position
        ∨ boardToArray (board r) !! Z.to_nat position ≠ Some "")%Z →
       run (make_move id code position) None w
       = (Some tt, w, [(ToSocket id, error "Invalid move")])).
Proof.
  split_and!.
  - intros Hb%not_in_room_unbound.
    unfold run, make_move, try_catch. cbv beta. eval_step. by rewrite Hb.
  - intros r Hb%not_in_room_bound Hr Hs.
    unfold run, make_move, try_catch. cbv beta.
    eval_step. rewrite Hb. eval_step. rewrite Hr.
    by rewrite eqb_playing_false.
  - intros r Hb%not_in_room_bound Hr Hs Hp.
    unfold run, make_move, try_catch. cbv beta.
    eval_step. rewrite Hb. eval_step. rewrite Hr, Hs, String.eqb_refl. cbn [negb].
    destruct (playerSymbol (socket_in w id)) as [symbol|]; cbv beta iota; [|done].
    destruct (String.eqb_spec (current_player r) symbol) as [Heq|]; [|done].
    by rewrite Heq in Hp.
  - intros r Hb%not_in_room_bound Hr Hs Hp Hinv%invalid_move_true.
    unfold run, make_move, try_catch. cbv beta.
    eval_step. rewrite Hb. eval_step. rewrite Hr, Hs, Hp.
    rewrite !String.eqb_refl. cbn [negb]. by rewrite Hinv.
Qed.

Lemma make_move_rejected_witness :
  run (make_move "b" "ABC123" 0) None lobby
  = (Some tt, lobby, [(ToSocket "b", error "Not your turn")]).
Proof.
  refine (proj1 (proj2 (proj2 (make_move_rejected lobby "b" "ABC123" 0)))
            lobby_room _ _ _ _).
  - split; [reflexivity | discriminate].
  - reflexivity.
  - reflexivity.
  - discriminate.
Defined.


Lemma after_move_room w code position r symbol :
  game_rooms w !! code = Some r →
  game_rooms (after_move w code position r symbol) !! code
  = Some (moved r position symbol r).
Proof.
  intros Hr. unfold after_move. by rewrite game_rooms_set, lookup_alter_eq, Hr.
Qed.




Lemma opposite_parity (n : nat) :
  Nat.iter n opposite "X" = (if Nat.even n then "X" else "O")
  ∧ Nat.iter n opposite "O" = (if Nat.even n then "O" else "X").
Proof.
  induction n as [|n [IHX IHO]]; [done|].
  rewrite !Nat.iter_succ, IHX, IHO, Nat.even_succ, <- Nat.negb_even.
  by destruct (Nat.even n).
Qed.

Lemma play_current_player (code : string) (moves : list (string * Z)) :
  ∀ (w : world) (r : room),
    game_rooms w !! code = Some r →
    all_applied code w moves →
    ∃ r', game_rooms (play code w moves) !! code = Some r'
          ∧ current_player r' = Nat.iter (length moves) opposite (current_player r).
Proof.
  induction moves as [|[id position] moves IH]; intros w r Hr Hall.
  - by exists r.
  - destruct Hall as [(r0 & symbol & Hacc)%applied_accepted Hall].
    pose proof Hacc as (_ & Hr0 & _ & _ & Hc & _).
    assert (r0 = r) as -> by congruence.
    cbn [fst snd] in *. unfold play in *. cbn [foldl fst snd length].
    unfold world_after in *. rewrite (make_move_accepted _ _ _ _ _ _ Hacc) in *.
    cbn [fst snd] in *.
    pose proof (after_move_room w code position r symbol Hr) as Hr'.
    destruct (IH _ _ Hr' Hall) as (r' & Hlook & Hcur).
    exists r'. split; [done|].
    rewrite Hcur, Nat.iter_succ_r, Hc. done.
Qed.

(** C8. From a room whose currentPlayer is X (as in a fresh playing room),
    after any N moves that are all applied, the room's currentPlayer is X
    if N is even and O if N is odd. Applied moves alternate by the turn
    guard; that none of them produces a winner need not be assumed, since
    no move is applied after a finishing one. *)
Theorem current_player_parity (w : world) (code : string) (r : room)
    (moves : list (string * Z)) :
  game_rooms w !! code = Some r →
  current_player r = "X" →
  all_applied code w moves →
  ∃ r', game_rooms (play code w moves) !! code = Some r'
        ∧ current_player r' = if Nat.even (length moves) then "X" else "O".
Proof.
  intros Hr HX Hall.
  destruct (play_current_player code moves w r Hr Hall) as (r' & Hlook & Hcur).
  exists r'. split; [done|].
  rewrite Hcur, HX. apply opposite_parity.
Qed.

Lemma current_player_parity_witness :
  ∃ r', game_rooms (play "ABC123" lobby [("a", 0); ("b", 3); ("a", 1)]%Z) !! "ABC123"
        = Some r'
        ∧ current_player r' = "O".
Proof.
  apply (current_player_parity lobby "ABC123" lobby_room
           [("a", 0); ("b", 3); ("a", 1)]%Z).
  - reflexivity.
  - reflexivity.
  - cbn [all_applied fst snd]. split_and!; [| | |done];
      (eexists; vm_compute; left).
Defined.

(** ** Joins *)

Lemma join_room_full w id code name r :
  game_rooms w !! code = Some r →
  2 ≤ length (connected_players code w) →
  run (join_room id code name) None w
  = (Some tt, w, [(ToSocket id, error "Room is full")]).
Proof.
  intros Hr Hfull. unfold run, join_room, try_catch. cbv beta.
  eval_step. rewrite Hr. eval_step. by rewrite decide_True.
Qed.

Lemma join_room_joined w id code name stored r :
  game_rooms w !! code = Some r →
  length (connected_players code w) < 2 →
  varchar 100 name = Some stored →
  ∃ ms, run (join_room id code name) None w
        = (Some tt, after_join w id code stored, ms).
Proof.
  intros Hr Hfree Hname. unfold run, join_room, try_catch. cbv beta.
  eval_step. rewrite Hr. eval_step. rewrite decide_False by lia.
  do 2 eval_step. unfold after_join, after_upsert, symbol_for.
  destruct (bool_decide (length (connected_players code w) = 0)).
  - do 3 eval_step. rewrite game_rooms_set, lookup_alter_eq.
    cbn [set_sockets set_players game_rooms]. rewrite Hr.
    cbn [fmap option_fmap option_map]. do 2 eval_step.
    rewrite sendPlayerInfo_ok. by eexists.
  - do 3 eval_step. rewrite game_rooms_set, lookup_alter_eq.
    cbn [set_sockets set_players game_rooms]. rewrite Hr.
    cbn [fmap option_fmap option_map]. do 2 eval_step.
    rewrite sendPlayerInfo_ok. by eexists.
Qed.

Lemma join_room_refused w id code name r :
  game_rooms w !! code = Some r →
  length (connected_players code w) < 2 →
  varchar 100 name = None →
  run (join_room id code name) None w
  = (Some tt, w, [(ToSocket id, error "Failed to join room")]).
Proof.
  intros Hr Hfree Hname. unfold run, join_room, try_catch. cbv beta.
  eval_step. rewrite Hr. eval_step. rewrite decide_False by lia.
  by rewrite bind_upsert_player_refused.
Qed.

Lemma varchar_fits n s : String.length s ≤ n → varchar n s = Some s.
Proof. intros H. unfold varchar. by rewrite decide_True. Qed.

Lemma connected_players_length code w :
  length (connected_players code w) = size (filter (connected_in code) (players w)).
Proof. unfold connected_players. apply length_map_to_list. Qed.

Lemma connected_players_nil code w :
  connected_players code w = [] ↔ filter (connected_in code) (players w) = ∅.
Proof. unfold connected_players. apply map_to_list_empty_iff. Qed.

Lemma connected_after_upsert w id code name :
  filter (connected_in code) (players (after_upsert w id code name))
  = <[id := {| p_room_code := code; symbol := symbol_for w code; name := name;
               connected := true |}]> (filter (connected_in code) (players w)).
Proof.
  unfold after_upsert. cbn [set_sockets set_players players].
  by rewrite map_filter_insert_True.
Qed.

Lemma connected_players_after_join w id code name :
  connected_players code (after_join w id code name)
  = connected_players code (after_upsert w id code name).
Proof. done. Qed.

Lemma after_join_room w id code name r :
  game_rooms w !! code = Some r →
  game_rooms (after_join w id code name) !! code
  = Some ((if bool_decide (length (connected_players code w) = 0)
           then seat_first id else seat_second id) r).
Proof.
  intros Hr. unfold after_join. rewrite game_rooms_set, lookup_alter_eq.
  cbn [after_upsert set_sockets set_players game_rooms]. by rewrite Hr.
Qed.

Lemma after_join_player w id code name :
  players (after_join w id code name) !! id
  = Some {| p_room_code := code; symbol := symbol_for w code; name := name;
            connected := true |}.
Proof.
  cbn [after_join after_upsert set_game_rooms set_sockets set_players players].
  apply lookup_insert_eq.
Qed.

Lemma after_join_socket w id code name :
  socket_in (after_join w id code name) id
  = {| roomCode := Some code; playerSymbol := Some (symbol_for w code) |}.
Proof.
  unfold socket_in.
  cbn [after_join after_upsert set_game_rooms set_sockets set_players sockets].
  by rewrite lookup_insert_eq.
Qed.

(** C4, as stated, fails. When the joins of [a] and [b] arrive together on
    a fresh room, both handlers count the connected players before either
    has written its row: both joiners are given X, and the room is left
    waiting with only [b] seated. And a first joiner whose name has 101
    characters is refused by the players table: it is answered 'Failed to
    join room' and is given no symbol. *)
Lemma join_sequencing_overlap :
  Async.idle Async.two_joins = true
  ∧ players (Async.store Async.two_joins) !! "a"
    = Some {| p_room_code := "ABC123"; symbol := "X"; name := "Alice";
              connected := true |}
  ∧ players (Async.store Async.two_joins) !! "b"
    = Some {| p_room_code := "ABC123"; symbol := "X"; name := "Bob";
              connected := true |}
  ∧ game_rooms (Async.store Async.two_joins) !! "ABC123"
    = Some {| player1_id := Some "b"; player2_id := None; current_player := "X";
              board := "         "; game_status := "waiting"; winner := None |}
  ∧ String.length Async.long_name = 101
  ∧ run (join_room "a" "ABC123" Async.long_name) None fresh_room
    = (Some tt, fresh_room, [(ToSocket "a", error "Failed to join room")]).
Proof. split_and!; by vm_compute. Qed.

(** C4, amended. On a fresh room (status waiting, no connected player),
    when the joins are handled one after the other and the names of the
    first two joiners are accepted by the players table: the first joiner
    receives X and the room stays waiting; a second, different joiner
    receives O and the room becomes playing; then any further join is
    answered by the RoomFull error alone and changes nothing. *)
Theorem join_sequencing (w : world) (code a b c na nb nc : string) (r : room) :
  game_rooms w !! code = Some r →
  game_status r = "waiting" →
  connected_players code w = [] →
  a ≠ b →
  accepted na → accepted nb →
  let w1 := world_after (join_room a code na) None w in
  let w2 := world_after (join_room b code nb) None w1 in
  (∃ p r1, players w1 !! a = Some p ∧ symbol p = "X"
           ∧ playerSymbol (socket_in w1 a) = Some "X"
           ∧ game_rooms w1 !! code = Some r1 ∧ game_status r1 = "waiting")
  ∧ (∃ p r2, players w2 !! b = Some p ∧ symbol p = "O"
             ∧ playerSymbol (socket_in w2 b) = Some "O"
             ∧ game_rooms w2 !! code = Some r2 ∧ game_status r2 = "playing")
  ∧ run (join_room c code nc) None w2
    = (Some tt, w2, [(ToSocket c, error "Room is full")]).
Proof.
  intros Hr Hs Hnone Hab [sa Hsa] [sb Hsb] w1 w2.
  assert (length (connected_players code w) = 0) as Hlen0 by by rewrite Hnone.
  destruct (join_room_joined w a code na sa r Hr) as [ms1 Hrun1]; [lia|done|].
  assert (w1 = after_join w a code sa) as Hw1.
  { unfold w1, world_after. by rewrite Hrun1. }
  assert (symbol_for w code = "X") as HX.
  { unfold symbol_for. by rewrite bool_decide_eq_true_2. }
  pose proof (after_join_room w a code sa r Hr) as Hr1.
  rewrite bool_decide_eq_true_2 in Hr1 by done. rewrite <- Hw1 in Hr1.
  assert (filter (connected_in code) (players w1)
          = {[ a := {| p_room_code := code; symbol := "X"; name := sa;
                       connected := true |} ]}) as Hf1.
  { rewrite Hw1. change (players (after_join w a code sa))
      with (players (after_upsert w a code sa)).
    rewrite connected_after_upsert, HX.
    apply connected_players_nil in Hnone. by rewrite Hnone. }
  assert (length (connected_players code w1) = 1) as Hlen1.
  { by rewrite connected_players_length, Hf1, map_size_singleton. }
  destruct (join_room_joined w1 b code nb sb _ Hr1) as [ms2 Hrun2]; [lia|done|].
  assert (w2 = after_join w1 b code sb) as Hw2.
  { unfold w2, world_after. by rewrite Hrun2. }
  assert (symbol_for w1 code = "O") as HO.
  { unfold symbol_for. rewrite bool_decide_eq_false_2; [done | lia]. }
  pose proof (after_join_room w1 b code sb _ Hr1) as Hr2.
  rewrite bool_decide_eq_false_2 in Hr2 by lia. rewrite <- Hw2 in Hr2.
  assert (length (connected_players code w2) = 2) as Hlen2.
  { rewrite connected_players_length, Hw2.
    change (players (after_join w1 b code sb))
      with (players (after_upsert w1 b code sb)).
    rewrite connected_after_upsert, Hf1, map_size_insert_None.
    - by rewrite map_size_singleton.
    - by apply lookup_singleton_ne. }
  split_and!.
  - eexists _, _. rewrite Hw1 at 1 2. rewrite after_join_player, after_join_socket, HX.
    split_and!; [done|done|done|exact Hr1|done].
  - eexists _, _. rewrite Hw2 at 1 2. rewrite after_join_player, after_join_socket, HO.
    split_and!; [done|done|done|exact Hr2|done].
  - eapply join_room_full; [exact Hr2 | lia].
Qed.

Lemma join_sequencing_witness :
  (∃ p r1,
     players (world_after (join_room "a" "ABC123" "Alice") None fresh_room) !! "a"
     = Some p
     ∧ symbol p = "X"
     ∧ playerSymbol
         (socket_in (world_after (join_room "a" "ABC123" "Alice") None fresh_room) "a")
       = Some "X"
     ∧ game_rooms (world_after (join_room "a" "ABC123" "Alice") None fresh_room)
         !! "ABC123" = Some r1
     ∧ game_status r1 = "waiting")
  ∧ (∃ p r2,
       players (world_after (join_room "b" "ABC123" "Bob") None
                  (world_after (join_room "a" "ABC123" "Alice") None fresh_room))
         !! "b" = Some p
       ∧ symbol p = "O"
       ∧ playerSymbol
           (socket_in (world_after (join_room "b" "ABC123" "Bob") None
                         (world_after (join_room "a" "ABC123" "Alice") None
                            fresh_room)) "b")
         = Some "O"
       ∧ game_rooms (world_after (join_room "b" "ABC123" "Bob") None
                       (world_after (join_room "a" "ABC123" "Alice") None fresh_room))
           !! "ABC123" = Some r2
       ∧ game_status r2 = "playing")
  ∧ run (join_room "c" "ABC123" "Carol") None
      (world_after (join_room "b" "ABC123" "Bob") None
         (world_after (join_room "a" "ABC123" "Alice") None fresh_room))
    = (Some tt,
       world_after (join_room "b" "ABC123" "Bob") None
         (world_after (join_room "a" "ABC123" "Alice") None fresh_room),
       [(ToSocket "c", error "Room is full")]).
Proof.
  apply (join_sequencing fresh_room "ABC123" "a" "b" "c"
           "Alice" "Bob" "Carol" new_room).
  - reflexivity.
  - reflexivity.
  - reflexivity.
  - discriminate.
  - eexists. reflexivity.
  - eexists. reflexivity.
Defined.

(** ** Handlers under any failure of the store *)

(** Symbolic execution: the triples below track the current world exactly;
    each query leaves a side condition, the exceptional postcondition at the
    world reached so far. *)
Section Triples.
Context {A B : Type}.
Implicit Types (w : world) (R : B → world → Prop) (E : world → Prop).

Lemma hoare_run (m : M B) w R E fault :
  hoare (eq w) m R E →
  match value_of m fault w with
  | Some a => R a (world_after m fault w)
  | None => E (world_after m fault w)
  end.
Proof.
  intros H. unfold value_of, world_after, run.
  specialize (H {| now := w; sent := []; fault := fault |} eq_refl).
  by destruct (m _) as [[a|] c].
Qed.

Lemma sx_ret (b : B) w R E : R b w → hoare (eq w) (ret b) R E.
Proof. by intros H c ->. Qed.

Lemma sx_throw w R E : E w → hoare (eq w) (throw : M B) R E.
Proof. by intros H c ->. Qed.

Lemma sx_emit t m w (R : unit → world → Prop) E :
  R tt w → hoare (eq w) (emit t m) R E.
Proof. by intros H c ->. Qed.

Lemma sx_bind_gets (f : world → A) (k : A → M B) w R E :
  hoare (eq w) (k (f w)) R E → hoare (eq w) (bind (gets f) k) R E.
Proof. intros H c ->. by apply H. Qed.

Lemma sx_bind_modify f (k : unit → M B) w R E :
  hoare (eq (f w)) (k tt) R E → hoare (eq w) (bind (modify f) k) R E.
Proof. intros H c ->. by apply (H {| now := f (now c) |}). Qed.

Lemma sx_bind_emit t m (k : unit → M B) w R E :
  hoare (eq w) (k tt) R E → hoare (eq w) (bind (emit t m) k) R E.
Proof. intros H c ->. by apply (H {| now := now c |}). Qed.

Lemma sx_bind_query (k : unit → M B) w R E :
  E w → hoare (eq w) (k tt) R E → hoare (eq w) (bind query k) R E.
Proof.
  intros HE H [w' ms f] Hc. cbn [now] in Hc. subst w'.
  unfold bind, query; cbn [now sent fault]. destruct f as [[|n]|].
  - done.
  - by apply (H {| now := w |}).
  - by apply (H {| now := w |}).
Qed.

Lemma sx_bind_first_row (rows : option A) (k : A → M B) w R E :
  E w → (∀ r, rows = Some r → hoare (eq w) (k r) R E) →
  hoare (eq w) (bind (first_row rows) k) R E.
Proof.
  intros HE H. destruct rows as [r|].
  - by apply H.
  - by intros c ->.
Qed.

Lemma sx_try_catch (body handler : M B) w R E E' :
  hoare (eq w) body R E' →
  (∀ w', E' w' → hoare (eq w') handler R E) →
  hoare (eq w) (try_catch body handler) R E.
Proof.
  intros Hb Hh c Hc. unfold try_catch. specialize (Hb c Hc).
  destruct (body c) as [[b|] c']; [done|]. by apply (Hh (now c')).
Qed.

End Triples.

(** The queries, each a [query] followed by a read or a write. *)
Section Queries.
Context {B : Type}.
Implicit Types (w : world) (R : B → world → Prop) (E : world → Prop).

Lemma bind_bind {A C} (m : M A) (k : A → M C) (h : C → M B) c :
  bind (bind m k) h c = bind m (λ a, bind (k a) h) c.
Proof. unfold bind. by destruct (m c) as [[a|] c']. Qed.

Lemma hoare_ext (m m' : M B) P R E :
  (∀ c, m c = m' c) → hoare P m' R E → hoare P m R E.
Proof. intros Heq H c Hc. rewrite Heq. by apply H. Qed.

Lemma sx_bind_select_room code (k : option room → M B) w R E :
  E w → hoare (eq w) (k (game_rooms w !! code)) R E →
  hoare (eq w) (bind (select_room code) k) R E.
Proof.
  intros HE H. eapply hoare_ext; [intros c; apply bind_bind|].
  apply sx_bind_query; [done|]. by apply sx_bind_gets.
Qed.

Lemma sx_bind_select_connected code (k : list (string * player) → M B) w R E :
  E w → hoare (eq w) (k (connected_players code w)) R E →
  hoare (eq w) (bind (select_connected code) k) R E.
Proof.
  intros HE H. eapply hoare_ext; [intros c; apply bind_bind|].
  apply sx_bind_query; [done|]. by apply sx_bind_gets.
Qed.

Lemma sx_bind_update_room code f (k : unit → M B) w R E :
  E w → hoare (eq (set_game_rooms (alter f code) w)) (k tt) R E →
  hoare (eq w) (bind (update_room code f) k) R E.
Proof.
  intros HE H. eapply hoare_ext; [intros c; apply bind_bind|].
  apply sx_bind_query; [done|]. by apply sx_bind_modify.
Qed.

Lemma sx_bind_upsert_player id code symbol name (k : unit → M B) w R E :
  E w →
  (∀ stored, varchar 100 name = Some stored →
     hoare (eq (set_players (insert id
       {| p_room_code := code; symbol := symbol; name := stored;
          connected := true |}) w)) (k tt) R E) →
  hoare (eq w) (bind (upsert_player id code symbol name) k) R E.
Proof.
  intros HE H. unfold upsert_player.
  eapply hoare_ext; [intros c; apply bind_bind|].
  apply sx_bind_query; [done|].
  destruct (varchar 100 name) as [stored|].
  - apply sx_bind_modify. by apply H.
  - by intros c ->.
Qed.

Lemma sx_bind_mark_disconnected id (k : unit → M B) w R E :
  E w → hoare (eq (set_players (alter offline id) w)) (k tt) R E →
  hoare (eq w) (bind (mark_disconnected id) k) R E.
Proof.
  intros HE H. eapply hoare_ext; [intros c; apply bind_bind|].
  apply sx_bind_query; [done|]. by apply sx_bind_modify.
Qed.

Lemma sx_bind_delete_players code (k : unit → M B) w R E :
  E w → hoare (eq (without_players code w)) (k tt) R E →
  hoare (eq w) (bind (delete_players code) k) R E.
Proof.
  intros HE H. eapply hoare_ext; [intros c; apply bind_bind|].
  apply sx_bind_query; [done|]. by apply sx_bind_modify.
Qed.

Lemma sx_bind_insert_room code (k : unit → M B) w R E :
  E w →
  (game_rooms w !! code = None →
   hoare (eq (set_game_rooms (insert code new_room) w)) (k tt) R E) →
  hoare (eq w) (bind (insert_room code) k) R E.
Proof.
  intros HE H. eapply hoare_ext; [intros c; apply bind_bind|].
  apply sx_bind_query; [done|].
  eapply hoare_ext; [intros c; apply bind_bind|].
  apply sx_bind_gets. destruct (game_rooms w !! code) eqn:Hc.
  - by intros c ->.
  - apply sx_bind_modify. by apply H.
Qed.

End Queries.

Lemma sx_silent {A} (m : M A) w (R : A → world → Prop) E :
  silent m → (∀ a, R a w) → E w → hoare (eq w) m R E.
Proof.
  intros Hs HR HE c ->. specialize (Hs c).
  destruct (m c) as [[a|] c']; simpl in Hs; by rewrite Hs.
Qed.

Lemma forEach_silent {A} (f : A → M unit) rows :
  (∀ row, silent (f row)) → silent (forEach f rows).
Proof.
  intros Hf. induction rows as [|row rows IH]; intros c; [done|].
  simpl. unfold bind. specialize (Hf row c).
  destruct (f row c) as [[[]|] c']; simpl in *; [|done].
  by rewrite IH.
Qed.

Lemma sendPlayerInfo_silent code : silent (sendPlayerInfo code).
Proof.
  intros c.
  assert (hoare (eq (now c)) (sendPlayerInfo code)
            (λ _ w, w = now c) (λ w, w = now c)) as H.
  { unfold sendPlayerInfo. apply sx_bind_select_room; [done|].
    destruct (game_rooms (now c) !! code) as [r|]; [|by apply sx_ret].
    apply sx_bind_select_connected; [done|]. apply sx_bind_gets.
    apply sx_silent; [|done|done].
    apply forEach_silent. intros [id p] c'.
    by destruct (sockets (now c) !! id). }
  specialize (H c eq_refl). by destruct (sendPlayerInfo code c) as [[[]|] c'].
Qed.

(** *** What each handler can leave behind *)

Lemma make_move_effect w id code position :
  hoare (eq w) (make_move id code position)
    (λ _, move_effect w id code position) (move_effect w id code position).
Proof.
  assert (move_effect w id code position w) as Hsame by by left.
  unfold make_move.
  eapply sx_try_catch; [|intros w' Hw'; by apply sx_emit].
  apply sx_bind_gets.
  destruct (not_in_room (socket_in w id) code) eqn:Hb; [by apply sx_emit|].
  apply sx_bind_select_room; [done|].
  destruct (game_rooms w !! code) as [r|] eqn:Hr; [|by apply sx_emit].
  destruct (String.eqb_spec (game_status r) "playing") as [Hs|Hs];
    [|by apply sx_emit].
  cbn [negb].
  destruct (playerSymbol (socket_in w id)) as [symbol|] eqn:Hp;
    [|by apply sx_emit].
  destruct (String.eqb_spec (current_player r) symbol) as [Hc|Hc];
    [|by apply sx_emit].
  cbn [negb].
  destruct (invalid_move (boardToArray (board r)) position) eqn:Hinv;
    [by apply sx_emit|].
  assert (move_effect w id code position (after_move w code position r symbol))
    as Hmoved.
  { right. exists r, symbol. split; [|done].
    apply not_in_room_bound in Hb. apply invalid_move_false in Hinv as [? ?].
    unfold move_accepted. tauto. }
  apply sx_bind_update_room; [done|]. fold (after_move w code position r symbol).
  apply sx_bind_select_room; [done|].
  apply sx_bind_select_connected; [done|].
  apply sx_bind_first_row; [done|]. intros updated _.
  apply sx_bind_emit.
  apply sx_silent; [apply sendPlayerInfo_silent|done|done].
Qed.

Lemma reset_game_effect w id code :
  hoare (eq w) (reset_game id code)
    (λ _, reset_effect w id code) (reset_effect w id code).
Proof.
  assert (reset_effect w id code w) as Hsame by by left.
  unfold reset_game.
  eapply sx_try_catch; [|intros w' Hw'; by apply sx_emit].
  apply sx_bind_gets.
  destruct (not_in_room (socket_in w id) code) eqn:Hb; [by apply sx_emit|].
  assert (reset_effect w id code (set_game_rooms (alter cleared code) w))
    as Hreset.
  { right. by apply not_in_room_bound in Hb. }
  apply sx_bind_update_room; [done|].
  apply sx_bind_select_room; [done|].
  apply sx_bind_select_connected; [done|].
  apply sx_bind_first_row; [done|]. intros updated _.
  apply sx_bind_emit.
  apply sx_silent; [apply sendPlayerInfo_silent|done|done].
Qed.

Lemma join_room_effect w id code name :
  hoare (eq w) (join_room id code name)
    (λ _, join_effect w id code name) (join_effect w id code name).
Proof.
  assert (join_effect w id code name w) as Hsame by by left.
  unfold join_room.
  eapply sx_try_catch; [|intros w' Hw'; by apply sx_emit].
  apply sx_bind_select_room; [done|].
  destruct (game_rooms w !! code) as [r|] eqn:Hr; [|by apply sx_emit].
  apply sx_bind_select_connected; [done|].
  destruct (decide (2 ≤ length (connected_players code w))) as [|Hfree];
    [by apply sx_emit|].
  apply sx_bind_upsert_player; [done|]. intros stored Hname.
  assert (join_effect w id code name (after_upsert w id code stored)) as Hup.
  { right. exists r, stored. split_and!; [done|lia|done|by left]. }
  assert (join_effect w id code name (after_join w id code stored)) as Hjoin.
  { right. exists r, stored. split_and!; [done|lia|done|by right]. }
  apply sx_bind_modify. fold (symbol_for w code).
  fold (after_upsert w id code stored).
  assert (∀ f, f = (if bool_decide (length (connected_players code w) = 0)
                    then seat_first id else seat_second id) →
          hoare (eq (after_upsert w id code stored))
            (update_room code f ;;
             updatedRoom <- select_room code ;;
             allPlayers <- select_connected code ;;
             updated <- first_row updatedRoom ;;
             emit (ToRoom code) (room_joined
               {| gs_roomCode := code;
                  gs_board := boardToArray (board updated);
                  gs_currentPlayer := current_player updated;
                  gs_gameStatus := game_status updated;
                  gs_winner := winner updated;
                  gs_players := allPlayers;
                  gs_lastMove := None |}) ;;
             sendPlayerInfo code)
            (λ _, join_effect w id code name) (join_effect w id code name))
    as Htail.
  { intros f ->. apply sx_bind_update_room; [done|].
    fold (after_join w id code stored).
    apply sx_bind_select_room; [done|].
    apply sx_bind_select_connected; [done|].
    apply sx_bind_first_row; [done|]. intros updated _.
    apply sx_bind_emit.
    apply sx_silent; [apply sendPlayerInfo_silent|done|done]. }
  destruct (bool_decide (length (connected_players code w) = 0)) eqn:Hfirst.
  - apply Htail. done.
  - apply Htail. done.
Qed.

Lemma hoare_bind {A B} (m : M A) (k : A → M B) P Q R E :
  hoare P m Q E → (∀ a, hoare (Q a) (k a) R E) → hoare P (bind m k) R E.
Proof.
  intros Hm Hk c Hc. unfold bind. specialize (Hm c Hc).
  destruct (m c) as [[a|] c']; [|done]. by apply Hk.
Qed.

Lemma hoare_modify f (P : world → Prop) (R : unit → world → Prop) E :
  (∀ w, P w → R tt (f w)) → hoare P (modify f) R E.
Proof. intros H c Hc. by apply H. Qed.

Lemma hoare_silent {A} (m : M A) :
  (∀ w, hoare (eq w) m (λ _ w', w' = w) (λ w', w' = w)) → silent m.
Proof.
  intros H c. specialize (H (now c) c eq_refl). by destruct (m c) as [[a|] c'].
Qed.

Lemma sx_bind_silent {A B} (m : M A) (k : A → M B) w R E :
  silent m → E w → (∀ a, hoare (eq w) (k a) R E) →
  hoare (eq w) (bind m k) R E.
Proof.
  intros Hs HE Hk. eapply hoare_bind; [|exact Hk].
  apply sx_silent; [done| |done]. done.
Qed.

Lemma generate_unique_silent gen attempts budget :
  silent (generate_unique gen attempts budget).
Proof.
  apply hoare_silent. intros w. revert attempts.
  induction budget as [|budget IH]; intros attempts; simpl;
    (apply sx_bind_select_room; [done|]);
    (destruct (game_rooms w !! gen attempts); [|by apply sx_ret]);
    (destruct (decide (S attempts < 10)); [|by apply sx_ret]).
  - by apply sx_ret.
  - apply IH.
Qed.

Lemma create_room_effect w gen :
  hoare (eq w) (create_room gen) (λ _, create_effect w) (create_effect w).
Proof.
  assert (create_effect w w) as Hsame by by left.
  unfold create_room.
  eapply sx_try_catch; [|intros w' Hw'; by apply sx_ret].
  apply sx_bind_silent; [apply generate_unique_silent|done|].
  intros [roomCode attempts].
  destruct (decide (10 ≤ attempts)); [by apply sx_ret|].
  apply sx_bind_insert_room; [done|]. intros Hfree.
  apply sx_ret. right. by exists roomCode.
Qed.

Lemma get_room_silent code : silent (get_room code).
Proof.
  apply hoare_silent. intros w. unfold get_room.
  eapply sx_try_catch; [|intros w' Hw'; by apply sx_ret].
  apply sx_bind_select_room; [done|].
  destruct (game_rooms w !! code); [|by apply sx_ret].
  apply sx_bind_select_connected; [done|]. by apply sx_ret.
Qed.

Lemma cleanup_effect_holds w code :
  hoare (eq w) (cleanup code) (λ _, cleanup_effect w code) (cleanup_effect w code).
Proof.
  assert (cleanup_effect w code w) as Hsame by by left.
  unfold cleanup.
  eapply sx_try_catch; [|intros w' Hw'; by apply sx_ret].
  apply sx_bind_select_connected; [done|].
  destruct (decide (length (connected_players code w) = 0)) as [Hnone|];
    [|by apply sx_ret].
  apply nil_length_inv in Hnone.
  assert (cleanup_effect w code (without_players code w)) as Hhalf.
  { right. split; [done | by left]. }
  apply sx_bind_delete_players; [done|].
  unfold delete_room. apply sx_bind_query; [done|].
  apply hoare_modify. intros ? <-. right. split; [done | by right].
Qed.

Lemma disconnect_effect_holds w id :
  hoare (eq w) (disconnect id) (λ _, disconnect_effect w id) (disconnect_effect w id).
Proof.
  unfold disconnect.
  apply hoare_bind with (Q := λ _ w1,
    w1 = w ∨ w1 = set_players (alter offline id) w
    ∨ ∃ code, roomCode (socket_in w id) = Some code
              ∧ w1 = set_timers (λ ts, ts ++ [code])
                       (set_players (alter offline id) w)).
  - eapply sx_try_catch; [|intros w' Hw'; apply sx_ret; exact Hw'].
    apply sx_bind_mark_disconnected; [by left|].
    apply sx_bind_gets.
    change (socket_in (set_players (alter offline id) w) id) with (socket_in w id).
    destruct (roomCode (socket_in w id)) as [code|] eqn:Hc;
      [|apply sx_ret; right; by left].
    destruct (truthy (Some code)); [|apply sx_ret; right; by left].
    apply sx_bind_emit. apply hoare_modify. intros ? <-.
    right. right. by exists code.
  - intros _. apply hoare_modify. intros w1 [->|[->|(code & Hc & ->)]].
    + by left.
    + right. by left.
    + right. right. by exists code.
Qed.

Lemma effect_run {A} (m : M A) w (Eff : world → Prop) fault :
  hoare (eq w) m (λ _, Eff) Eff → Eff (world_after m fault w).
Proof.
  intros H. pose proof (hoare_run m w _ _ fault H) as Hrun.
  by destruct (value_of m fault w).
Qed.

(** One event of the server, seen through the effects of the handlers. *)
Lemma step_effect w req fault :
  match req with
  | CreateRoom gen => create_effect w (step w (req, fault))
  | JoinRoom id code name =>
      join_effect w id code name (step w (req, fault))
  | MakeMove id code position =>
      move_effect w id code position (step w (req, fault))
  | ResetGame id code => reset_effect w id code (step w (req, fault))
  | Disconnect id =>
      step w (req, fault) = w ∨ disconnect_effect w id (step w (req, fault))
  | Timeout n =>
      step w (req, fault) = w
      ∨ ∃ code, timers w !! n = Some code
                ∧ cleanup_effect (set_timers (delete n) w) code (step w (req, fault))
  | GetRoom code => step w (req, fault) = w
  | Connection id =>
      step w (req, fault) = w
      ∨ step w (req, fault) = set_sockets (insert id new_socket) w
  end.
Proof.
  destruct req as [gen|code|id|id code name|id code position|id code|id|n];
    cbn [step].
  - apply effect_run, create_room_effect.
  - unfold world_after. pose proof (get_room_silent code
      {| now := w; sent := []; fault := fault |}) as H.
    unfold run. by destruct (get_room code _).
  - destruct (is_open id w); auto.
  - destruct (is_open id w); [|by left]. apply effect_run, join_room_effect.
  - destruct (is_open id w); [|by left]. apply effect_run, make_move_effect.
  - destruct (is_open id w); [|by left]. apply effect_run, reset_game_effect.
  - destruct (is_open id w); [|by left].
    right. apply effect_run, disconnect_effect_holds.
  - destruct (timers w !! n) as [code|]; [|by left].
    right. exists code. split; [done|]. apply effect_run, cleanup_effect_holds.
Qed.

Lemma reachable_steps w evs : reachable w → reachable (steps w evs).
Proof.
  intros [evs0 ->]. exists (evs0 ++ evs). unfold steps. by rewrite foldl_app.
Qed.

Lemma reachable_lobby : reachable lobby.
Proof. by eexists. Qed.

(** ** Symbols *)

Lemma lookup_offline (m : gmap string player) id id' p' :
  alter offline id m !! id' = Some p' →
  ∃ p, m !! id' = Some p ∧ symbol p' = symbol p
       ∧ p_room_code p' = p_room_code p.
Proof.
  rewrite lookup_alter. case_decide as Heq.
  - subst id'. destruct (m !! id) as [p|]; simpl; [|done]. intros [= <-]. by exists p.
  - intros ->. by exists p'.
Qed.

Lemma step_keeps_symbol w req fault id p p' :
  players w !! id = Some p →
  players (step w (req, fault)) !! id = Some p' →
  (∀ code name, req ≠ JoinRoom id code name) →
  symbol p' = symbol p.
Proof.
  intros Hp Hp' Hreq. pose proof (step_effect w req fault) as Heff.
  destruct req as [gen|code|id'|id' code name|id' code position|id' code|id'|n].
  - destruct Heff as [Hw|(code & _ & Hw)]; rewrite Hw in Hp'; simpl in Hp';
      congruence.
  - rewrite Heff in Hp'. congruence.
  - destruct Heff as [Hw|Hw]; rewrite Hw in Hp'; simpl in Hp'; congruence.
  - assert (id' ≠ id) as Hne by (intros ->; by eapply Hreq).
    destruct Heff as [Hw|(r & stored & _ & _ & _ & [Hw|Hw])]; rewrite Hw in Hp';
      cbn [after_join after_upsert set_game_rooms set_sockets set_players players]
        in Hp'; rewrite ?lookup_insert_ne in Hp' by done; congruence.
  - destruct Heff as [Hw|(r & s & _ & Hw)]; rewrite Hw in Hp'; simpl in Hp';
      congruence.
  - destruct Heff as [Hw|[_ Hw]]; rewrite Hw in Hp'; simpl in Hp'; congruence.
  - destruct Heff as [Hw|[Hw|[Hw|(code & _ & Hw)]]]; rewrite Hw in Hp';
      cbn [set_sockets set_timers set_players players] in Hp';
      try congruence;
      apply lookup_offline in Hp' as (q & Hq & Hs & _); congruence.
  - destruct Heff as [Hw|(code & _ & [Hw|[_ [Hw|Hw]]])]; rewrite Hw in Hp';
      cbn [without_players set_game_rooms set_timers set_players players] in Hp';
      try congruence;
      apply map_lookup_filter_Some in Hp' as [Hq _]; congruence.
Qed.

(** C3, as stated, fails: once the holder of X has left, the next joiner
    finds one connected player and is given O, like the player who stayed. *)
Lemma rejoin_duplicates_symbol :
  reachable rejoined ∧ ¬ distinct_symbols "ABC123" rejoined.
Proof.
  split.
  - apply reachable_steps, reachable_lobby.
  - intros H.
    apply (H "b" "c"
             {| p_room_code := "ABC123"; symbol := "O"; name := "Bob";
                connected := true |}
             {| p_room_code := "ABC123"; symbol := "O"; name := "Carol";
                connected := true |}); try done.
Qed.

(** C3, amended. A joiner whose name the players table accepts and who
    finds no connected player in the room is given X, one who finds exactly
    one is given O; a joiner whose name is refused is given nothing; and the
    symbol recorded for a connection is changed by no event other than a
    join sent by that same connection: not by another connection's join, a
    disconnect, a move, a reset or a timer, whichever query fails. *)
Theorem symbol_assignment (w : world) :
  (∀ id code name r,
     game_rooms w !! code = Some r →
     accepted name →
     (connected_players code w = [] →
      ∃ p, players (world_after (join_room id code name) None w) !! id = Some p
           ∧ symbol p = "X")
     ∧ (length (connected_players code w) = 1 →
        ∃ p, players (world_after (join_room id code name) None w) !! id = Some p
             ∧ symbol p = "O"))
  ∧ (∀ id code name r,
       game_rooms w !! code = Some r →
       length (connected_players code w) < 2 →
       ¬ accepted name →
       run (join_room id code name) None w
       = (Some tt, w, [(ToSocket id, error "Failed to join room")]))
  ∧ (∀ req fault id p p',
       players w !! id = Some p →
       players (step w (req, fault)) !! id = Some p' →
       (∀ code name, req ≠ JoinRoom id code name) →
       symbol p' = symbol p).
Proof.
  split_and!; [| |apply step_keeps_symbol].
  - intros id code name r Hr [stored Hname]. split.
    + intros Hnone.
      destruct (join_room_joined w id code name stored r Hr) as [ms Hrun];
        [rewrite Hnone; simpl; lia | done |].
      unfold world_after. rewrite Hrun. cbn [fst snd].
      rewrite after_join_player. eexists. split; [done|].
      cbn [symbol]. unfold symbol_for. by rewrite Hnone.
    + intros Hone.
      destruct (join_room_joined w id code name stored r Hr) as [ms Hrun];
        [lia | done |].
      unfold world_after. rewrite Hrun. cbn [fst snd].
      rewrite after_join_player. eexists. split; [done|].
      cbn [symbol]. unfold symbol_for. by rewrite Hone.
  - intros id code name r Hr Hfree Hname.
    apply (join_room_refused w id code name r Hr Hfree).
    unfold accepted in Hname. destruct (varchar 100 name); [|done].
    destruct Hname. by eexists.
Qed.

Lemma symbol_assignment_witness :
  ∃ p, players (world_after (join_room "a" "ABC123" "Alice") None fresh_room) !! "a"
       = Some p
       ∧ symbol p = "X".
Proof.
  apply (proj1 (symbol_assignment fresh_room) "a" "ABC123" "Alice" new_room).
  - reflexivity.
  - eexists. reflexivity.
  - reflexivity.
Defined.

(** ** Disconnection and the deferred cleanup *)

Lemma bind_delete_room_last code w ms :
  delete_room code (Ctx w ms) = (Some tt, Ctx (set_game_rooms (delete code) w) ms).
Proof. done. Qed.

Lemma cleanup_empty w code :
  connected_players code w = [] →
  world_after (cleanup code) None w
  = set_game_rooms (delete code) (without_players code w).
Proof.
  intros Hnone. unfold world_after, run, cleanup, try_catch. cbv beta.
  eval_step. rewrite Hnone. cbn [length]. rewrite decide_True by done.
  eval_step. by rewrite bind_delete_room_last.
Qed.

Lemma get_room_missing w code :
  game_rooms w !! code = None →
  value_of (get_room code) None w = Some (failed 404 "Room not found").
Proof.
  intros Hnone. unfold value_of, run, get_room, try_catch. cbv beta.
  eval_step. by rewrite Hnone.
Qed.

Lemma cleanup_deletes w code :
  connected_players code w = [] →
  game_rooms (world_after (cleanup code) None w) !! code = None
  ∧ (∀ id p, players (world_after (cleanup code) None w) !! id = Some p →
             p_room_code p ≠ code)
  ∧ value_of (get_room code) None (world_after (cleanup code) None w)
    = Some (failed 404 "Room not found").
Proof.
  intros Hnone. rewrite (cleanup_empty _ _ Hnone).
  assert (game_rooms (set_game_rooms (delete code) (without_players code w))
            !! code = None) as Hgone.
  { rewrite game_rooms_set. apply lookup_delete_eq. }
  split_and!; [done| |by apply get_room_missing].
  intros id p Hp.
  cbn [set_game_rooms without_players set_players players] in Hp.
  by apply map_lookup_filter_Some in Hp as [_ Hne].
Qed.

Lemma cleanup_keeps w code fault :
  connected_players code w ≠ [] → world_after (cleanup code) fault w = w.
Proof.
  intros Hsome.
  destruct (effect_run _ _ _ fault (cleanup_effect_holds w code)) as [Hw|[Hnone _]];
    done.
Qed.

Lemma bound_to_open w id code : bound_to w id code → is_open id w = true.
Proof.
  intros [Hc _]. unfold is_open, socket_in in *. apply bool_decide_eq_true.
  destruct (sockets w !! id); [by eexists | done].
Qed.

Lemma disconnect_bound w id code :
  bound_to w id code →
  step w (Disconnect id, None)
  = set_sockets (delete id)
      (set_timers (λ ts, ts ++ [code]) (set_players (alter offline id) w)).
Proof.
  intros Hb. cbn [step]. rewrite (bound_to_open _ _ _ Hb).
  destruct Hb as [Hc Hne].
  unfold world_after, run, disconnect. unfold bind at 1. unfold try_catch.
  cbv beta. do 2 eval_step.
  change (socket_in (set_players _ w) id) with (socket_in w id).
  rewrite Hc. unfold truthy.
  destruct (String.eqb_spec code "") as [|_]; [done|]. cbn [negb].
  eval_step. done.
Qed.

Lemma offline_not_connected (m : gmap string player) id p code :
  alter offline id m !! id = Some p → ¬ connected_in code (id, p).
Proof.
  rewrite lookup_alter_eq. destruct (m !! id) as [q|]; simpl; [|done].
  intros [= <-] [_ Hc]. done.
Qed.

Lemma both_disconnected w a b code :
  a ≠ b → bound_to w a code → bound_to w b code →
  (∀ id p, players w !! id = Some p → connected_in code (id, p) →
           id = a ∨ id = b) →
  connected_players code (steps w [(Disconnect a, None); (Disconnect b, None)]) = []
  ∧ timers (steps w [(Disconnect a, None); (Disconnect b, None)])
    = timers w ++ [code; code].
Proof.
  intros Hab Ha Hb Honly. unfold steps. cbn [foldl].
  rewrite (disconnect_bound w a code Ha).
  rewrite (disconnect_bound _ b code).
  2: { destruct Hb as [Hc Hne]. split; [|done]. unfold socket_in in *.
       cbn [set_sockets set_timers set_players sockets].
       by rewrite lookup_delete_ne. }
  split.
  - apply connected_players_nil.
    cbn [set_sockets set_timers set_players players].
    apply map_empty. intros id. apply map_lookup_filter_None. right.
    intros p Hp Hconn.
    destruct (decide (id = b)) as [->|Hnb].
    { by eapply offline_not_connected. }
    rewrite lookup_alter_ne in Hp by done.
    destruct (decide (id = a)) as [->|Hna].
    { by eapply offline_not_connected. }
    rewrite lookup_alter_ne in Hp by done.
    destruct (Honly id p Hp Hconn); done.
  - cbn [set_sockets set_timers set_players timers]. by rewrite <- app_assoc.
Qed.

(** C9. When the deferred cleanup of a room fires and finds no connected
    player, the room and all its player rows are deleted and a lookup of the
    code answers RoomNotFound; when it finds a connected player it deletes
    nothing. The test reads the players table of the world in which the
    timer fires. In particular, after both players of a room have
    disconnected, two timers are pending for the room, no connected player
    is left, and whichever of them fires first deletes the room. *)
Theorem cleanup_after_grace (w : world) (code : string) :
  (connected_players code w = [] →
     game_rooms (world_after (cleanup code) None w) !! code = None
     ∧ (∀ id p, players (world_after (cleanup code) None w) !! id = Some p →
                p_room_code p ≠ code)
     ∧ value_of (get_room code) None (world_after (cleanup code) None w)
       = Some (failed 404 "Room not found"))
  ∧ (connected_players code w ≠ [] →
       ∀ fault, world_after (cleanup code) fault w = w)
  ∧ (∀ a b,
       a ≠ b → bound_to w a code → bound_to w b code →
       (∀ id p, players w !! id = Some p → connected_in code (id, p) →
                id = a ∨ id = b) →
       timers (steps w [(Disconnect a, None); (Disconnect b, None)])
       = timers w ++ [code; code]
       ∧ ∀ n,
           timers (steps w [(Disconnect a, None); (Disconnect b, None)]) !! n
           = Some code →
           game_rooms (steps w [(Disconnect a, None); (Disconnect b, None);
                                (Timeout n, None)]) !! code = None
           ∧ (∀ id p,
                players (steps w [(Disconnect a, None); (Disconnect b, None);
                                  (Timeout n, None)]) !! id = Some p →
                p_room_code p ≠ code)
           ∧ value_of (get_room code) None
               (steps w [(Disconnect a, None); (Disconnect b, None);
                         (Timeout n, None)])
             = Some (failed 404 "Room not found")).
Proof.
  split_and!.
  - apply cleanup_deletes.
  - intros Hsome fault. by apply cleanup_keeps.
  - intros a b Hab Ha Hb Honly.
    destruct (both_disconnected w a b code Hab Ha Hb Honly) as [Hnone Htimers].
    split; [done|]. intros n Hn.
    change (steps w [(Disconnect a, None); (Disconnect b, None); (Timeout n, None)])
      with (step (steps w [(Disconnect a, None); (Disconnect b, None)])
              (Timeout n, None)).
    cbn [step]. rewrite Hn. by apply cleanup_deletes.
Qed.

Lemma cleanup_after_grace_witness :
  game_rooms (steps lobby [(Disconnect "a", None); (Disconnect "b", None);
                           (Timeout 0, None)]) !! "ABC123" = None.
Proof.
  refine (proj1 (proj2 (proj2 (proj2 (cleanup_after_grace lobby "ABC123"))
            "a" "b" _ _ _ _) 0 _)).
  - discriminate.
  - split; [reflexivity | discriminate].
  - split; [reflexivity | discriminate].
  - intros id p Hp _. apply elem_of_map_to_list in Hp. vm_compute in Hp.
    inversion Hp as [|? ? ? Hp1]; subst; [by left|].
    inversion Hp1 as [|? ? ? Hp2]; subst; [by right|].
    inversion Hp2.
  - reflexivity.
Defined.

(** ** The winner of a finished room *)

Lemma concat_cons (x : string) (xs : list string) :
  String.concat "" (x :: xs) = x +:+ String.concat "" xs.
Proof.
  destruct xs as [|y ys]; [|done]. simpl.
  induction x as [|a x IH]; [done|].
  change (String a x +:+ "") with (String a (x +:+ "")). by f_equal.
Qed.

Lemma boardToArray_formed (boardString : string) :
  Forall cell_formed (boardToArray boardString).
Proof.
  unfold boardToArray.
  induction boardString as [|a rest IH]; [constructor|].
  simpl. constructor; [|done].
  destruct (Ascii.eqb_spec a Ascii.Space); [by left|].
  right. by exists a.
Qed.

Lemma boardToArray_cons (a : Ascii.ascii) (rest : string) :
  boardToArray (String a rest)
  = (if Ascii.eqb a Ascii.Space then "" else String a "") :: boardToArray rest.
Proof. done. Qed.

Lemma arrayToBoard_cons (cell : string) (rest : list string) :
  arrayToBoard (cell :: rest)
  = (if String.eqb cell "" then " " else cell) +:+ arrayToBoard rest.
Proof. unfold arrayToBoard. by rewrite fmap_cons, concat_cons. Qed.

Lemma arrayToBoard_inv (boardArray : list string) :
  Forall cell_formed boardArray → boardToArray (arrayToBoard boardArray) = boardArray.
Proof.
  induction 1 as [|cell rest Hcell _ IH]; [done|].
  rewrite arrayToBoard_cons.
  destruct Hcell as [->|(a & -> & Ha)].
  - change (boardToArray (String Ascii.Space (arrayToBoard rest)) = "" :: rest).
    by rewrite boardToArray_cons, IH.
  - change (boardToArray (String a (arrayToBoard rest)) = String a "" :: rest).
    rewrite boardToArray_cons, IH.
    by destruct (Ascii.eqb_spec a Ascii.Space).
Qed.

Lemma moved_board (r row : room) (position : Z) (symbol : string) :
  symbol = "X" ∨ symbol = "O" →
  boardToArray (board (moved r position symbol row))
  = <[Z.to_nat position := symbol]> (boardToArray (board r)).
Proof.
  intros Hs. cbn [moved board]. apply arrayToBoard_inv.
  apply Forall_insert; [apply boardToArray_formed|].
  right. destruct Hs as [->| ->]; eexists; (split; [done|discriminate]).
Qed.

Lemma moved_ok (r row : room) (position : Z) :
  room_ok r → room_ok (moved r position (current_player r) row).
Proof.
  intros [Hxo _]. split.
  - cbn [moved current_player]. destruct (String.eqb _ "X"); auto.
  - intros Hfin. unfold finished_ok. rewrite (moved_board _ _ _ _ Hxo).
    cbn [moved game_status winner] in *.
    destruct (truthy (checkWinner _)); [done | discriminate].
Qed.

Lemma rooms_ok_alter (w : world) (f : room → room) code :
  rooms_ok w →
  (∀ r, game_rooms w !! code = Some r → room_ok (f r)) →
  rooms_ok (set_game_rooms (alter f code) w).
Proof.
  intros Hok Hf code' r'. rewrite game_rooms_set, lookup_alter.
  case_decide as Heq.
  - subst code'. destruct (game_rooms w !! code) as [r|] eqn:Hr; simpl; [|done].
    intros [= <-]. by apply Hf.
  - apply Hok.
Qed.

Lemma step_rooms_ok w req fault : rooms_ok w → rooms_ok (step w (req, fault)).
Proof.
  intros Hok. pose proof (step_effect w req fault) as Heff.
  destruct req as [gen|code|id|id code name|id code position|id code|id|n].
  - destruct Heff as [->|(code & _ & ->)]; [done|].
    intros code' r'. rewrite game_rooms_set, lookup_insert.
    case_decide; [|apply Hok]. intros [= <-]. split; [by left | done].
  - by rewrite Heff.
  - by destruct Heff as [->| ->].
  - destruct Heff as [->|(r & stored & Hr & _ & _ & [->| ->])]; [done|done|].
    apply rooms_ok_alter; [done|]. intros r0 Hr0.
    destruct (Hok _ _ Hr0) as [Hxo Hfin].
    destruct (bool_decide _); split; try done.
  - destruct Heff as [->|(r & symbol & Hacc & ->)]; [done|].
    destruct Hacc as (_ & Hr & _ & _ & <- & _).
    apply rooms_ok_alter; [done|]. intros row _. apply moved_ok. by eapply Hok.
  - destruct Heff as [->|[_ ->]]; [done|].
    apply rooms_ok_alter; [done|]. intros r _. split; [by left | done].
  - by destruct Heff as [->|[->|[->|(code & _ & ->)]]].
  - destruct Heff as [->|(code & _ & [->|[_ [->| ->]]])]; try done.
    intros code' r'. rewrite game_rooms_set. intros Hr'.
    apply lookup_delete_Some in Hr' as [_ Hr']. by eapply Hok.
Qed.

Lemma steps_rooms_ok evs : ∀ w, rooms_ok w → rooms_ok (steps w evs).
Proof.
  induction evs as [|[req fault] evs IH]; intros w Hok; [done|].
  apply IH. by apply step_rooms_ok.
Qed.

Lemma reachable_rooms_ok w : reachable w → rooms_ok w.
Proof.
  intros [evs ->]. apply steps_rooms_ok. intros code r Hr. done.
Qed.

(** C2, as stated, fails: the game below ends in a draw; the room is
    finished, its board evaluates to ['draw'], and the winner stored is
    [null]. *)
Lemma draw_stored_as_null :
  reachable drawn
  ∧ ∃ r, game_rooms drawn !! "ABC123" = Some r
         ∧ game_status r = "finished"
         ∧ checkWinner (boardToArray (board r)) = Some "draw"
         ∧ winner r = None
         ∧ winner r ≠ checkWinner (boardToArray (board r)).
Proof.
  split.
  - apply reachable_steps, reachable_lobby.
  - eexists. split; [vm_compute; reflexivity|].
    vm_compute. by split_and!.
Qed.

(** C2, amended. In every reachable world, whichever queries failed on the
    way, a room whose status is finished has a board whose evaluation is not
    [null], and its stored winner is that evaluation when it is a symbol and
    [null] when it is ['draw']. *)
Theorem finished_winner (w : world) (code : string) (r : room) :
  reachable w →
  game_rooms w !! code = Some r →
  game_status r = "finished" →
  checkWinner (boardToArray (board r)) ≠ None
  ∧ (checkWinner (boardToArray (board r)) = Some "draw" → winner r = None)
  ∧ (checkWinner (boardToArray (board r)) ≠ Some "draw" →
     winner r = checkWinner (boardToArray (board r))).
Proof.
  intros Hreach Hr Hfin.
  destruct (reachable_rooms_ok w Hreach code r Hr) as [_ Hok].
  destruct (Hok Hfin) as [Htruthy Hwin]. unfold strict_eq in Hwin.
  split_and!.
  - intros Hnone. by rewrite Hnone in Htruthy.
  - intros Hdraw. by rewrite Hwin, bool_decide_eq_true_2.
  - intros Hsym. by rewrite Hwin, bool_decide_eq_false_2.
Qed.

Lemma finished_winner_witness :
  checkWinner (boardToArray "XOXXOOOXX") ≠ None
  ∧ (checkWinner (boardToArray "XOXXOOOXX") = Some "draw" →
     winner {| player1_id := Some "a"; player2_id := Some "b";
               current_player := "O"; board := "XOXXOOOXX";
               game_status := "finished"; winner := None |} = None)
  ∧ (checkWinner (boardToArray "XOXXOOOXX") ≠ Some "draw" →
     winner {| player1_id := Some "a"; player2_id := Some "b";
               current_player := "O"; board := "XOXXOOOXX";
               game_status := "finished"; winner := None |}
     = checkWinner (boardToArray "XOXXOOOXX")).
Proof.
  apply (finished_winner drawn "ABC123"
           {| player1_id := Some "a"; player2_id := Some "b";
              current_player := "O"; board := "XOXXOOOXX";
              game_status := "finished"; winner := None |}).
  - apply reachable_steps, reachable_lobby.
  - vm_compute. reflexivity.
  - reflexivity.
Defined.

(** ** Creating rooms *)

Lemma create_room_outcome w gen :
  hoare (eq w) (create_room gen) (create_outcome w) (λ _, False).
Proof.
  unfold create_room.
  apply sx_try_catch with (E' := eq w).
  2: { intros w' <-. apply sx_ret. right. done. }
  apply sx_bind_silent; [apply generate_unique_silent|done|].
  intros [roomCode attempts].
  destruct (decide (10 ≤ attempts)); [apply sx_ret; by right|].
  apply sx_bind_insert_room; [done|]. intros Hfree.
  apply sx_ret. left. by exists roomCode.
Qed.

(** Once the first nine candidates collide, the loop ends with the counter
    at 10 whatever the tenth candidate is, and the request is refused. *)
Lemma generate_unique_nine_collisions w ms gen k :
  ∀ attempts,
    attempts + k = 9 →
    (∀ i, attempts ≤ i < 9 → is_Some (game_rooms w !! gen i)) →
    ∃ code, generate_unique gen attempts (S k) (Ctx w ms)
            = (Some (code, 10), Ctx w ms).
Proof.
  induction k as [|k IH]; intros attempts Hsum Hcollide.
  - assert (attempts = 9) as -> by lia. cbn [generate_unique].
    eval_step. destruct (game_rooms w !! gen 9); [|by eexists].
    rewrite decide_False by lia. by eexists.
  - cbn [generate_unique]. eval_step.
    destruct (Hcollide attempts) as [r ->]; [lia|].
    rewrite decide_True by lia.
    apply IH; [lia|]. intros i Hi. apply Hcollide. lia.
Qed.

Lemma create_room_nine_collisions w gen :
  (∀ i, i < 9 → is_Some (game_rooms w !! gen i)) →
  run (create_room gen) None w
  = (Some (failed 500 "Unable to generate unique room code"), w, []).
Proof.
  intros Hcollide.
  destruct (generate_unique_nine_collisions w [] gen 9 0) as [code Hloop];
    [done | intros i Hi; apply Hcollide; lia |].
  unfold run, create_room, try_catch, bind. by rewrite Hloop.
Qed.

(** A free candidate met at attempt [k + 1] ends the loop with the counter
    at [k + 1]; the room is created when that is one of the first nine
    attempts. *)
Lemma generate_unique_free w ms gen k :
  ∀ attempts budget,
    (∀ i, attempts ≤ i < attempts + k → is_Some (game_rooms w !! gen i)) →
    game_rooms w !! gen (attempts + k) = None →
    attempts + k < 10 → k ≤ budget →
    generate_unique gen attempts budget (Ctx w ms)
    = (Some (gen (attempts + k), S (attempts + k)), Ctx w ms).
Proof.
  induction k as [|k IH]; intros attempts budget Hcollide Hfree Hlt Hbudget.
  - rewrite Nat.add_0_r in *.
    destruct budget; cbn [generate_unique]; eval_step; by rewrite Hfree.
  - destruct budget as [|budget]; [lia|]. cbn [generate_unique]. eval_step.
    destruct (Hcollide attempts) as [r ->]; [lia|].
    rewrite decide_True by lia.
    rewrite (IH (S attempts) budget).
    + by rewrite Nat.add_succ_r.
    + intros i Hi. apply Hcollide. lia.
    + by rewrite Nat.add_succ_l, <- Nat.add_succ_r.
    + lia.
    + lia.
Qed.

Lemma create_room_creates w gen k :
  k < 9 →
  (∀ i, i < k → is_Some (game_rooms w !! gen i)) →
  game_rooms w !! gen k = None →
  run (create_room gen) None w
  = (Some (created (gen k)), set_game_rooms (insert (gen k) new_room) w, []).
Proof.
  intros Hk Hcollide Hfree.
  pose proof (generate_unique_free w [] gen k 0 10) as Hloop.
  rewrite Nat.add_0_l in Hloop.
  unfold run, create_room, try_catch.
  unfold bind at 1. rewrite Hloop; [|intros i Hi; apply Hcollide; lia|done|lia|lia].
  rewrite decide_False by lia.
  unfold insert_room. rewrite bind_bind.
  unfold bind at 1. cbn [query now sent fault].
  rewrite bind_bind. eval_step. rewrite Hfree. by eval_step.
Qed.

(** C5, the defect: nine attempts collide and the tenth candidate is free,
    yet the request is answered by the exhaustion error and no room is
    stored; when the free candidate comes at the ninth attempt the room is
    created. *)
Theorem create_room_tenth_attempt :
  game_rooms crowded !! "ZZZZZ9" = None
  ∧ run (create_room (collide_then_free 9)) None crowded
    = (Some (failed 500 "Unable to generate unique room code"), crowded, [])
  ∧ run (create_room (collide_then_free 8)) None crowded
    = (Some (created "ZZZZZ9"),
       set_game_rooms (insert "ZZZZZ9" new_room) crowded, []).
Proof. split_and!; by vm_compute. Qed.

(** ** Failures of the store *)

(** C7, as stated, fails: the room update of a join is rejected after the
    player row has been written. The second joiner's row is stored with
    symbol O while the room still waits with no second player. *)
Lemma join_failure_is_partial :
  messages_of (join_room "b" "ABC123" "Bob") (Some 3) one_seated
  = [(ToSocket "b", error "Failed to join room")]
  ∧ players one_seated !! "b" = None
  ∧ players (world_after (join_room "b" "ABC123" "Bob") (Some 3) one_seated) !! "b"
    = Some {| p_room_code := "ABC123"; symbol := "O"; name := "Bob";
              connected := true |}
  ∧ game_rooms (world_after (join_room "b" "ABC123" "Bob") (Some 3) one_seated)
      !! "ABC123"
    = Some {| player1_id := Some "a"; player2_id := None; current_player := "X";
              board := "         "; game_status := "waiting"; winner := None |}
  ∧ world_after (join_room "b" "ABC123" "Bob") (Some 3) one_seated ≠ one_seated.
Proof.
  split_and!; by vm_compute.
Qed.

Lemma join_room_early_failure w id code name n :
  n ≤ 2 → world_after (join_room id code name) (Some n) w = w.
Proof.
  intros Hn. unfold world_after, run, join_room, try_catch.
  destruct n as [|[|[|n]]]; [| | |lia].
  - done.
  - unfold bind at 1. unfold select_room at 1. unfold bind at 1.
    cbn [query fault now sent gets].
    destruct (game_rooms w !! code); [|done]. done.
  - unfold bind at 1. unfold select_room at 1. unfold bind at 1.
    cbn [query fault now sent gets].
    destruct (game_rooms w !! code); [|done].
    unfold bind at 1. unfold select_connected at 1. unfold bind at 1.
    cbn [query fault now sent gets].
    destruct (decide (2 ≤ length (connected_players code w))); done.
Qed.

(** The reads that follow the two writes of a join. *)
Lemma join_room_reads_silent code :
  silent (updatedRoom <- select_room code ;;
          allPlayers <- select_connected code ;;
          updated <- first_row updatedRoom ;;
          emit (ToRoom code) (room_joined
            {| gs_roomCode := code;
               gs_board := boardToArray (board updated);
               gs_currentPlayer := current_player updated;
               gs_gameStatus := game_status updated;
               gs_winner := winner updated;
               gs_players := allPlayers;
               gs_lastMove := None |}) ;;
          sendPlayerInfo code).
Proof.
  apply hoare_silent. intros w.
  apply sx_bind_select_room; [done|].
  apply sx_bind_select_connected; [done|].
  apply sx_bind_first_row; [done|]. intros updated _.
  apply sx_bind_emit.
  apply sx_silent; [apply sendPlayerInfo_silent|done|done].
Qed.

(** A failure of the store from the room UPDATE of a join on: the UPDATE
    itself is query number 3, the reads that follow are numbers 4 to 7. *)
Lemma join_room_late_failure w id code name stored r n :
  game_rooms w !! code = Some r →
  length (connected_players code w) < 2 →
  varchar 100 name = Some stored →
  world_after (join_room id code name) (Some (3 + n)) w
  = match n with
    | O => after_upsert w id code stored
    | S _ => after_join w id code stored
    end.
Proof.
  intros Hr Hfree Hname. unfold world_after, run, join_room, try_catch.
  cbn [Nat.add].
  unfold bind at 1. unfold select_room at 1. unfold bind at 1.
  cbn [query fault now sent gets]. rewrite Hr.
  unfold bind at 1. unfold select_connected at 1. unfold bind at 1.
  cbn [query fault now sent gets]. rewrite decide_False by lia.
  unfold bind at 1. unfold upsert_player at 1. unfold bind at 1.
  cbn [query fault now sent]. rewrite Hname.
  unfold bind at 1. cbn [modify now sent fault].
  fold (symbol_for w code). fold (after_upsert w id code stored).
  unfold bind at 1.
  assert (∀ f, f = (if bool_decide (length (connected_players code w) = 0)
                    then seat_first id else seat_second id) →
          update_room code f
            {| now := after_upsert w id code stored; sent := []; fault := Some n |}
          = match n with
            | O => (None, {| now := after_upsert w id code stored; sent := [];
                             fault := Some 0 |})
            | S m => (Some tt, {| now := after_join w id code stored; sent := [];
                                  fault := Some m |})
            end) as Hupdate.
  { intros f ->. by destruct n. }
  destruct (bool_decide (length (connected_players code w) = 0)) eqn:Hfirst;
    (rewrite Hupdate by done; destruct n as [|m]; [done|];
     match goal with
     | |- context [bind (select_room code) ?k ?c] =>
         pose proof (join_room_reads_silent code c) as Hs;
         destruct (bind (select_room code) k c) as [[[]|] c']
     end; cbn [snd now] in Hs; cbn [fst snd now emit]; by rewrite Hs).
Qed.

(** C7, amended. Whichever query fails: a create changes the store only
    when it answers with success, inserting the new room; a move or a reset
    leaves the world either as it was or with its single UPDATE fully
    applied (board, currentPlayer, status and winner together). A join that
    fails at one of the two reads that precede its writes, or at the player
    upsert, leaves the world as it was; one that fails at the room UPDATE
    leaves the player row and the socket written and the room row as it
    was; one that fails at one of the reads that follow the UPDATE leaves
    both writes applied. Whichever query fails, a join writes only if the
    room exists, has fewer than two connected players and the name is
    accepted by the players table. *)
Theorem single_write_atomicity (w : world) (fault : option nat) :
  (∀ gen, ∃ resp, value_of (create_room gen) fault w = Some resp
                  ∧ create_outcome w resp (world_after (create_room gen) fault w))
  ∧ (∀ id code position,
       world_after (make_move id code position) fault w = w
       ∨ ∃ r symbol, move_accepted w id code position r symbol
                     ∧ world_after (make_move id code position) fault w
                       = set_game_rooms (alter (moved r position symbol) code) w)
  ∧ (∀ id code,
       world_after (reset_game id code) fault w = w
       ∨ (bound_to w id code
          ∧ world_after (reset_game id code) fault w
            = set_game_rooms (alter cleared code) w))
  ∧ (∀ id code name n,
       fault = Some n →
       (n ≤ 2 → world_after (join_room id code name) fault w = w)
       ∧ (∀ r stored,
            game_rooms w !! code = Some r →
            length (connected_players code w) < 2 →
            varchar 100 name = Some stored →
            (n = 3 →
             world_after (join_room id code name) fault w
             = after_upsert w id code stored)
            ∧ (4 ≤ n →
               world_after (join_room id code name) fault w
               = after_join w id code stored)))
  ∧ (∀ id code name,
       join_effect w id code name (world_after (join_room id code name) fault w)).
Proof.
  split_and!.
  - intros gen.
    pose proof (hoare_run _ _ _ _ fault (create_room_outcome w gen)) as H.
    destruct (value_of (create_room gen) fault w) as [resp|]; [|done].
    by exists resp.
  - intros id code position.
    apply (effect_run _ _ _ fault (make_move_effect w id code position)).
  - intros id code.
    apply (effect_run _ _ _ fault (reset_game_effect w id code)).
  - intros id code name n ->. split; [by apply join_room_early_failure|].
    intros r stored Hr Hfree Hname. split.
    + intros ->.
      exact (join_room_late_failure w id code name stored r 0 Hr Hfree Hname).
    + intros Hn. replace n with (3 + S (n - 4)) by lia.
      exact (join_room_late_failure w id code name stored r (S (n - 4))
               Hr Hfree Hname).
  - intros id code name.
    apply (effect_run _ _ _ fault (join_room_effect w id code name)).
Qed.

Lemma single_write_atomicity_witness :
  world_after (join_room "b" "ABC123" "Bob") (Some 4) one_seated
  = after_join one_seated "b" "ABC123" "Bob".
Proof.
  destruct (single_write_atomicity one_seated (Some 4))
    as (_ & _ & _ & Hjoin & _).
  destruct (Hjoin "b" "ABC123" "Bob" 4 eq_refl) as [_ Hlate].
  apply (Hlate (seat_first "a" new_room) "Bob").
  - vm_compute. reflexivity.
  - vm_compute. lia.
  - reflexivity.
  - lia.
Defined.

(** * Further properties of the server and of the client *)

(** ** Board strings and board arrays *)

(** X1. Writing a board array back gives the stored string again: for every
    string, [arrayToBoard (boardToArray s) = s], and the array has one cell
    per character. *)
Theorem arrayToBoard_boardToArray (boardString : string) :
  arrayToBoard (boardToArray boardString) = boardString
  ∧ length (boardToArray boardString) = String.length boardString.
Proof.
  induction boardString as [|a rest [IH IHlen]]; [done|].
  rewrite boardToArray_cons, arrayToBoard_cons. cbn [length String.length].
  rewrite IH, IHlen. split; [|done].
  destruct (Ascii.eqb_spec a Ascii.Space) as [->|]; done.
Qed.

Lemma arrayToBoard_length (boardArray : list string) :
  Forall cell_formed boardArray →
  String.length (arrayToBoard boardArray) = length boardArray.
Proof.
  induction 1 as [|cell rest Hcell _ IH]; [done|].
  rewrite arrayToBoard_cons.
  destruct Hcell as [->|(a & -> & Ha)]; cbn [length]; by rewrite <- IH.
Qed.

(** X2. Reading back a board array that was written: the array comes back
    unchanged exactly when each of its cells is empty or one character other
    than a space; then the string written has one character per cell. *)
Theorem boardToArray_arrayToBoard (boardArray : list string) :
  (boardToArray (arrayToBoard boardArray) = boardArray
   ↔ Forall cell_formed boardArray)
  ∧ (Forall cell_formed boardArray →
     String.length (arrayToBoard boardArray) = length boardArray).
Proof.
  split; [|apply arrayToBoard_length]. split.
  - intros <-. apply boardToArray_formed.
  - apply arrayToBoard_inv.
Qed.

Lemma boardToArray_arrayToBoard_witness :
  String.length (arrayToBoard ["X"; ""; "O"]) = length ["X"; ""; "O"].
Proof.
  apply (proj2 (boardToArray_arrayToBoard ["X"; ""; "O"])).
  repeat (constructor;
    [first [ by left | right; eexists; split; [reflexivity | discriminate] ]|]).
  constructor.
Defined.

(** ** Evaluation of a board *)

Lemma checkWinner_cases (board : list string) :
  (∃ s p, p ∈ winPatterns ∧ uniform_with board p s ∧ checkWinner board = Some s)
  ∨ ((∀ p, p ∈ winPatterns → ¬ uniform board p)
     ∧ all_filled board ∧ checkWinner board = Some "draw")
  ∨ ((∀ p, p ∈ winPatterns → ¬ uniform board p)
     ∧ ¬ all_filled board ∧ checkWinner board = None).
Proof.
  unfold checkWinner.
  destruct (checkWinner_from_cases board winPatterns)
    as [(s & (before & p & after & Heq & _ & Hu) & Hr) | [Hall Hr]].
  - left. exists s, p. split_and!; [|done|done]. rewrite Heq. set_solver.
  - right. rewrite Forall_forall in Hall.
    destruct (forallb _ board) eqn:Hb.
    + left. split_and!; [done| |done]. by apply forallb_all_filled.
    + right. split_and!; [done| |done]. rewrite <- forallb_all_filled. congruence.
Qed.

(** X3. [checkWinner] never returns the empty string: its result is truthy
    exactly when it is not [null]. Hence the status written by a move is
    finished exactly when the board after the move has a winner or is full,
    and playing otherwise. *)
Theorem finished_iff_decided (r row : room) (position : Z) (symbol : string) :
  (∀ board, truthy (checkWinner board) = true ↔ checkWinner board ≠ None)
  ∧ (game_status (moved r position symbol row) = "finished"
     ↔ checkWinner (<[Z.to_nat position := symbol]> (boardToArray (board r))) ≠ None)
  ∧ (game_status (moved r position symbol row) = "playing"
     ↔ checkWinner (<[Z.to_nat position := symbol]> (boardToArray (board r))) = None).
Proof.
  assert (∀ board, truthy (checkWinner board) = true ↔ checkWinner board ≠ None)
    as Htruthy.
  { intros board.
    destruct (checkWinner_cases board)
      as [(s & p & _ & (Hne & _) & ->) | [(_ & _ & ->) | (_ & _ & ->)]]; simpl.
    - destruct (String.eqb_spec s ""); [done|]. by split.
    - by split.
    - by split. }
  split_and!; [done| |]; cbn [moved game_status];
    specialize (Htruthy (<[Z.to_nat position := symbol]> (boardToArray (board r))));
    destruct (truthy _).
  - split; [intros _; by apply Htruthy | done].
  - split; [done|]. intros H. by apply Htruthy in H.
  - split; [done|]. intros H. destruct Htruthy as [Ht _]. by destruct (Ht eq_refl).
  - split; [intros _|done].
    destruct (checkWinner _) eqn:Hc; [|done]. destruct Htruthy as [_ Ht].
    by discriminate Ht.
Qed.

(** X4. Filling an empty cell never makes a decided board undecided: if the
    evaluation of a board is not [null], it is still not [null] after a
    non-empty value is written in a cell that was empty. *)
Theorem checkWinner_stays_decided (board : list string) (i : nat) (s : string) :
  board !! i = Some "" →
  s ≠ "" →
  checkWinner board ≠ None →
  checkWinner (<[i := s]> board) ≠ None.
Proof.
  intros Hi Hs Hdecided.
  destruct (checkWinner_cases board)
    as [(t & p & Hp & Hu & _) | [(_ & Hfull & _) | (_ & _ & Hnone)]];
    [| |done].
  - assert (uniform (<[i := s]> board) p) as Hu'.
    { destruct Hu as (Hne & Ha & Hb & Hc). exists t.
      split_and!; [done|..]; rewrite list_lookup_insert_ne; try done;
        intros ->; congruence. }
    destruct (checkWinner_cases (<[i := s]> board))
      as [(t' & _ & _ & _ & ->) | [(_ & _ & ->) | (Hno & _)]]; [done|done|].
    by destruct (Hno p Hp).
  - unfold all_filled in Hfull. rewrite Forall_lookup in Hfull.
    by destruct (Hfull i "" Hi).
Qed.

Lemma checkWinner_stays_decided_witness :
  checkWinner (<[5 := "O"]> ["X"; "X"; "X"; "O"; "O"; ""; ""; ""; ""]) ≠ None.
Proof.
  apply (checkWinner_stays_decided ["X"; "X"; "X"; "O"; "O"; ""; ""; ""; ""] 5 "O").
  - reflexivity.
  - discriminate.
  - discriminate.
Defined.

(** ** Room codes *)

Lemma list_ascii_of_string_app (s t : string) :
  String.list_ascii_of_string (s +:+ t)
  = String.list_ascii_of_string s ++ String.list_ascii_of_string t.
Proof. induction s as [|a s IH]; [done|]. simpl. by rewrite <- IH. Qed.

Lemma length_list_ascii_of_string (s : string) :
  length (String.list_ascii_of_string s) = String.length s.
Proof. induction s as [|a s IH]; [done|]. simpl. by rewrite IH. Qed.

Lemma charAt_cases (s : string) (i : nat) :
  (i < String.length s
   ∧ ∃ a, Codes.charAt s i = String a "" ∧ a ∈ String.list_ascii_of_string s)
  ∨ (String.length s ≤ i ∧ Codes.charAt s i = "").
Proof.
  unfold Codes.charAt. revert i.
  induction s as [|a s IH]; intros i; [right; split; [simpl; lia | done]|].
  destruct i as [|i]; simpl.
  - left. split; [lia|]. exists a. split; [done | by left].
  - destruct (IH i) as [[Hlt (b & Hb & Hin)]|[Hge Hb]].
    + left. split; [lia|]. exists b. split; [done | by right].
    + right. split; [lia | done].
Qed.

Lemma generateRoomCode_loop_shape (draw : nat → nat) (remaining : nat) :
  ∀ i result,
    Codes.over_alphabet result →
    Codes.over_alphabet (Codes.generateRoomCode_loop draw i remaining result)
    ∧ String.length (Codes.generateRoomCode_loop draw i remaining result)
      ≤ String.length result + remaining
    ∧ ((∀ j, i ≤ j < i + remaining → draw j < String.length Codes.chars) →
       String.length (Codes.generateRoomCode_loop draw i remaining result)
       = String.length result + remaining).
Proof.
  induction remaining as [|remaining IH]; intros i result Hres.
  - cbn [Codes.generateRoomCode_loop]. split_and!; [done|lia|lia].
  - cbn [Codes.generateRoomCode_loop].
    assert (String.length (result +:+ Codes.charAt Codes.chars (draw i))
            = String.length result
              + String.length (Codes.charAt Codes.chars (draw i))) as Hlen.
    { by rewrite <- !length_list_ascii_of_string, list_ascii_of_string_app,
        length_app. }
    destruct (charAt_cases Codes.chars (draw i))
      as [[Hlt (a & Ha & Hin)]|[Hge Ha]]; rewrite Ha in *.
    + destruct (IH (S i) (result +:+ String a "")) as (Hover & Hle & Heq).
      { unfold Codes.over_alphabet. rewrite list_ascii_of_string_app.
        apply Forall_app. split; [done|]. simpl. constructor; [done | constructor]. }
      cbn [String.length] in Hlen.
      split_and!; [done|lia|]. intros Hdraw. rewrite Heq; [lia|].
      intros j Hj. apply Hdraw. lia.
    + destruct (IH (S i) (result +:+ "")) as (Hover & Hle & Heq).
      { unfold Codes.over_alphabet. rewrite list_ascii_of_string_app.
        apply Forall_app. split; [done|]. constructor. }
      cbn [String.length] in Hlen.
      split_and!; [done|lia|]. intros Hdraw.
      specialize (Hdraw i). lia.
Qed.

(** X5. Whatever indices the random source yields, [generateRoomCode]
    returns at most 6 characters, all from the 36-character alphabet; when
    the six indices drawn are below 36 it returns exactly 6 characters. *)
Theorem generateRoomCode_shape (draw : nat → nat) :
  Codes.over_alphabet (Codes.generateRoomCode draw)
  ∧ String.length (Codes.generateRoomCode draw) ≤ 6
  ∧ ((∀ i, i < 6 → draw i < 36) →
     String.length (Codes.generateRoomCode draw) = 6).
Proof.
  destruct (generateRoomCode_loop_shape draw 6 0 "") as (Hover & Hle & Heq);
    [constructor|].
  split_and!; [done|done|]. intros Hdraw. apply Heq. intros j Hj.
  apply Hdraw. lia.
Qed.

Lemma generateRoomCode_shape_witness :
  String.length (Codes.generateRoomCode (λ i, 7 * i)) = 6.
Proof.
  apply (proj2 (proj2 (generateRoomCode_shape (λ i, 7 * i)))).
  intros i Hi. lia.
Defined.

(** ** Reset *)




(** ** Room lookup *)

Lemma get_room_answer w code :
  hoare (eq w) (get_room code)
    (λ resp w',
       w' = w
       ∧ (resp = failed 500 "Failed to fetch room"
          ∨ resp = match game_rooms w !! code with
                   | Some r => found r (boardToArray (board r))
                                 (connected_players code w)
                   | None => failed 404 "Room not found"
                   end))
    (λ _, False).
Proof.
  unfold get_room.
  apply sx_try_catch with (E' := eq w).
  2: { intros w' <-. apply sx_ret. split; [done | by left]. }
  apply sx_bind_select_room; [done|].
  destruct (game_rooms w !! code) as [r|]; [|apply sx_ret; split; [done | by right]].
  apply sx_bind_select_connected; [done|].
  apply sx_ret. split; [done | by right].
Qed.

(** X7. The room lookup is read-only and total: whichever query fails it
    leaves the world as it is and answers; without failure
    the answer is 404 'Room not found' exactly when no room has the code,
    and otherwise the room row, its board as an array and its connected
    players; a failure is answered by 500 'Failed to fetch room'. *)
Theorem get_room_read_only (w : world) (code : string) (fault : option nat) :
  world_after (get_room code) fault w = w
  ∧ (∃ resp, value_of (get_room code) fault w = Some resp
             ∧ (resp = failed 500 "Failed to fetch room"
                ∨ resp = match game_rooms w !! code with
                         | Some r => found r (boardToArray (board r))
                                       (connected_players code w)
                         | None => failed 404 "Room not found"
                         end))
  ∧ value_of (get_room code) None w
    = Some (match game_rooms w !! code with
            | Some r => found r (boardToArray (board r)) (connected_players code w)
            | None => failed 404 "Room not found"
            end)
  ∧ (value_of (get_room code) None w = Some (failed 404 "Room not found")
     ↔ game_rooms w !! code = None).
Proof.
  pose proof (hoare_run _ _ _ _ fault (get_room_answer w code)) as Hrun.
  destruct (value_of (get_room code) fault w) as [resp|] eqn:Hv; [|done].
  destruct Hrun as [Hw Hresp].
  assert (value_of (get_room code) None w
          = Some (match game_rooms w !! code with
                  | Some r => found r (boardToArray (board r))
                                (connected_players code w)
                  | None => failed 404 "Room not found"
                  end)) as Hnone.
  { unfold value_of, run, get_room, try_catch. cbv beta. eval_step.
    destruct (game_rooms w !! code); [by eval_step | done]. }
  split_and!; [done|by exists resp|done|].
  rewrite Hnone. by destruct (game_rooms w !! code).
Qed.

(** ** Turn messages *)

Lemma player_infos_elem (r : room) (open : gmap string socket)
    (rows : list (string * player)) t m :
  (t, m) ∈ player_infos r open rows
  ↔ ∃ id p, (id, p) ∈ rows ∧ is_Some (open !! id) ∧ t = ToSocket id
            ∧ m = player_info (symbol p)
                    (bool_decide (symbol p = current_player r)
                     && bool_decide (game_status r = "playing")).
Proof.
  unfold player_infos. rewrite list_elem_of_In, in_flat_map. split.
  - intros ([id p] & Hin%list_elem_of_In & Hm). cbn [fst snd] in Hm.
    destruct (open !! id) eqn:Ho; [|done].
    destruct Hm as [[= <- <-]|[]]. exists id, p. by rewrite Ho.
  - intros (id & p & Hin & [sk Ho] & -> & ->).
    exists (id, p). split; [by apply list_elem_of_In|].
    cbn [fst snd]. rewrite Ho. by left.
Qed.

Lemma player_infos_targets (r : room) (open : gmap string socket)
    (rows : list (string * player)) :
  NoDup rows.*1 → NoDup (player_infos r open rows).*1.
Proof.
  induction rows as [|[id p] rows IH]; [constructor|].
  rewrite fmap_cons. intros [Hfresh Hrest]%NoDup_cons.
  unfold player_infos. cbn [flat_map fst snd]. fold (player_infos r open rows).
  destruct (open !! id); [|by apply IH].
  cbn [app]. rewrite fmap_cons. apply NoDup_cons. split; [|by apply IH].
  cbn [fst]. intros ([t m] & Ht & Hin)%list_elem_of_fmap. cbn [fst] in Ht.
  apply player_infos_elem in Hin as (id' & p' & Hin & _ & -> & _).
  injection Ht as ->. apply Hfresh. apply list_elem_of_fmap. by exists (id', p').
Qed.

(** X8. [sendPlayerInfo] writes nothing, whichever query fails. Without
    failure it sends exactly one [player-info] to every open connection that
    is a connected player of the room, and nothing else, nothing at all when
    the room does not exist; the symbol sent is the one in the player's row
    and isMyTurn is true exactly when that symbol is the room's
    currentPlayer and the room's status is playing. *)
Theorem sendPlayerInfo_sends (w : world) (code : string) :
  (∀ fault, world_after (sendPlayerInfo code) fault w = w)
  ∧ (∀ t m,
       (t, m) ∈ messages_of (sendPlayerInfo code) None w
       ↔ ∃ id p r turn,
           t = ToSocket id ∧ m = player_info (symbol p) turn
           ∧ is_Some (sockets w !! id)
           ∧ players w !! id = Some p ∧ connected_in code (id, p)
           ∧ game_rooms w !! code = Some r
           ∧ (turn = true
              ↔ symbol p = current_player r ∧ game_status r = "playing"))
  ∧ NoDup (messages_of (sendPlayerInfo code) None w).*1
  ∧ (game_rooms w !! code = None →
     messages_of (sendPlayerInfo code) None w = []).
Proof.
  assert (messages_of (sendPlayerInfo code) None w = infos_of code w) as Hms.
  { unfold messages_of, run. by rewrite sendPlayerInfo_ok. }
  rewrite Hms. unfold infos_of. split_and!.
  - intros fault. unfold world_after, run.
    pose proof (sendPlayerInfo_silent code
                  {| now := w; sent := []; fault := fault |}) as H.
    by destruct (sendPlayerInfo code _).
  - intros t m. destruct (game_rooms w !! code) as [r|] eqn:Hr.
    + rewrite player_infos_elem. unfold connected_players. split.
      * intros (id & p & Hin & Ho & -> & ->).
        apply elem_of_map_to_list, map_lookup_filter_Some in Hin as [Hp Hc].
        exists id, p, r. eexists. split_and!; try done.
        rewrite andb_true_iff, !bool_decide_eq_true. done.
      * intros (id & p & r' & turn & -> & -> & Ho & Hp & Hc & [= <-] & Hturn).
        exists id, p. split_and!; try done.
        { by apply elem_of_map_to_list, map_lookup_filter_Some. }
        f_equal. apply eq_true_iff_eq.
        rewrite andb_true_iff, !bool_decide_eq_true. done.
    + split; [intros []%elem_of_nil|]. by intros (? & ? & ? & ? & _ & _ & _ & _ & _ & ? & _).
  - destruct (game_rooms w !! code); [|constructor].
    apply player_infos_targets. unfold connected_players.
    apply NoDup_fst_map_to_list.
  - by intros ->.
Qed.

(** ** Invariants of the store *)

Lemma boardToArray_length (boardString : string) :
  length (boardToArray boardString) = String.length boardString.
Proof.
  induction boardString as [|a rest IH]; [done|].
  rewrite boardToArray_cons. cbn [length String.length]. by rewrite IH.
Qed.

Lemma is_cell_formed (cell : string) : is_cell cell → cell_formed cell.
Proof.
  intros [->|[->| ->]]; [by left|right..]; eexists; (split; [done|discriminate]).
Qed.

(** A property of rooms that the initial row has and that every UPDATE
    keeps holds of all rooms of all reachable worlds. *)
Lemma step_rooms_invariant (P : room → Prop) w req fault :
  P new_room →
  (∀ id r, P r → P (seat_first id r)) →
  (∀ id r, P r → P (seat_second id r)) →
  (∀ r, P r → P (cleared r)) →
  (∀ r position,
     P r → game_status r = "playing" → (0 ≤ position ≤ 8)%Z →
     boardToArray (board r) !! Z.to_nat position = Some "" →
     P (moved r position (current_player r) r)) →
  (∀ code r, game_rooms w !! code = Some r → P r) →
  ∀ code r, game_rooms (step w (req, fault)) !! code = Some r → P r.
Proof.
  intros Hnew Hfirst Hsecond Hclear Hmove Hok.
  assert (∀ f code,
            (∀ r, game_rooms w !! code = Some r → P (f r)) →
            ∀ code' r', game_rooms (set_game_rooms (alter f code) w) !! code'
                        = Some r' → P r') as Halter.
  { intros f code Hf code' r'. rewrite game_rooms_set, lookup_alter.
    case_decide as Heq; [|apply Hok]. subst code'.
    destruct (game_rooms w !! code) as [r|] eqn:Hr; simpl; [|done].
    intros [= <-]. by apply Hf. }
  pose proof (step_effect w req fault) as Heff.
  destruct req as [gen|code0|id|id code0 name|id code0 position|id code0|id|n].
  - destruct Heff as [->|(code0 & _ & ->)]; [done|].
    intros code r. rewrite game_rooms_set, lookup_insert.
    case_decide; [|apply Hok]. by intros [= <-].
  - by rewrite Heff.
  - by destruct Heff as [->| ->].
  - destruct Heff as [->|(r0 & stored & Hr0 & _ & _ & [->| ->])]; [done|done|].
    apply Halter. intros r1 Hr1. destruct (bool_decide _); eauto.
  - destruct Heff as [->|(r0 & symbol & Hacc & ->)]; [done|].
    destruct Hacc as (_ & Hr0 & Hs & _ & <- & Hpos & Hcell).
    apply Halter. intros r1 Hr1. assert (r1 = r0) as -> by congruence.
    apply Hmove; eauto.
  - destruct Heff as [->|[_ ->]]; [done|]. apply Halter. eauto.
  - by destruct Heff as [->|[->|[->|(code0 & _ & ->)]]].
  - destruct Heff as [->|(code0 & _ & [->|[_ [->| ->]]])]; try done.
    intros code r. rewrite game_rooms_set. intros Hr.
    apply lookup_delete_Some in Hr as [_ Hr]. by eapply Hok.
Qed.

Lemma rooms_invariant (P : room → Prop) :
  P new_room →
  (∀ id r, P r → P (seat_first id r)) →
  (∀ id r, P r → P (seat_second id r)) →
  (∀ r, P r → P (cleared r)) →
  (∀ r position,
     P r → game_status r = "playing" → (0 ≤ position ≤ 8)%Z →
     boardToArray (board r) !! Z.to_nat position = Some "" →
     P (moved r position (current_player r) r)) →
  ∀ w, reachable w → ∀ code r, game_rooms w !! code = Some r → P r.
Proof.
  intros Hnew Hfirst Hsecond Hclear Hmove w [evs ->].
  assert (∀ evs w, (∀ code r, game_rooms w !! code = Some r → P r) →
                   ∀ code r, game_rooms (steps w evs) !! code = Some r → P r)
    as Hsteps.
  { clear evs. induction evs as [|[req fault] evs IH]; intros w Hw; [done|].
    apply IH. by apply step_rooms_invariant. }
  apply Hsteps. intros code r Hr. done.
Qed.

Lemma moved_well_shaped (r : room) (position : Z) :
  well_shaped r → well_shaped (moved r position (current_player r) r).
Proof.
  intros (Hlen & Hcells & Hsym & _ & _).
  assert (Forall is_cell
            (<[Z.to_nat position := current_player r]> (boardToArray (board r))))
    as Hcells'.
  { apply Forall_insert; [done|]. right. exact Hsym. }
  unfold well_shaped. rewrite (moved_board _ _ _ _ Hsym).
  split_and!.
  - cbn [moved board]. rewrite arrayToBoard_length.
    + by rewrite length_insert, boardToArray_length.
    + eapply Forall_impl; [done|]. apply is_cell_formed.
  - done.
  - cbn [moved current_player]. destruct (String.eqb _ "X"); [by right | by left].
  - cbn [moved game_status]. destruct (truthy _); auto.
  - cbn [moved winner].
    destruct (checkWinner_cases
                (<[Z.to_nat position := current_player r]> (boardToArray (board r))))
      as [(s & p & _ & (Hne & Hs & _) & ->) | [(_ & _ & ->) | (_ & _ & ->)]].
    + rewrite Forall_lookup in Hcells'. specialize (Hcells' _ _ Hs).
      destruct Hcells' as [->|[->| ->]]; [done|by right; left|by right; right].
    + by left.
    + by left.
Qed.

Lemma reachable_rooms_shaped (w : world) (code : string) (r : room) :
  reachable w →
  game_rooms w !! code = Some r →
  well_shaped r ∧ (game_status r = "waiting" → untouched r).
Proof.
  intros Hreach Hr. revert w Hreach code r Hr.
  apply (rooms_invariant (λ r, well_shaped r ∧ (game_status r = "waiting" → untouched r))).
  - split; [|done]. unfold well_shaped. cbn.
    split_and!; [done| |by left|by left|by left].
    repeat (constructor; [by left|]). constructor.
  - intros id r [Hs Hw]. split; [exact Hs | exact Hw].
  - intros id r [(? & ? & ? & ? & ?) _]. split; [|done].
    unfold well_shaped. cbn. split_and!; try done. right. by left.
  - intros r _. split; [|done]. unfold well_shaped. cbn.
    split_and!; [done| |by left|by right; left|by left].
    repeat (constructor; [by left|]). constructor.
  - intros r position [Hs _] Hplaying _ _. split; [by apply moved_well_shaped|].
    cbn [moved game_status]. by destruct (truthy _).
Qed.

(** X9. In every reachable world, whichever queries failed on the way,
    every room has a board of exactly 9 cells, each empty, X or O; its
    currentPlayer is X or O; its status is waiting, playing or finished; its
    stored winner is null, X or O (never 'draw'); and while its status is
    waiting no game has started: the board is empty, X is to move, there is
    no winner and no second player. *)
Theorem rooms_well_shaped (w : world) (code : string) (r : room) :
  reachable w →
  game_rooms w !! code = Some r →
  well_shaped r ∧ (game_status r = "waiting" → untouched r).
Proof. apply reachable_rooms_shaped. Qed.

Lemma rooms_well_shaped_witness :
  well_shaped lobby_room ∧ (game_status lobby_room = "waiting" → untouched lobby_room).
Proof.
  apply (rooms_well_shaped lobby "ABC123" lobby_room).
  - apply reachable_lobby.
  - reflexivity.
Defined.






(** ** One handler alone in the machine *)

Lemma atomic_bind {A B} (p : Async.prog A) (k : A → Async.prog B) c :
  Async.atomic (Async.bind p k) c
  = bind (Async.atomic p) (λ a, Async.atomic (k a)) c.
Proof.
  revert c. induction p as [a| |X q h IH|X e h IH]; intros c; cbn [Async.bind Async.atomic].
  - done.
  - done.
  - unfold bind. cbn [Async.atomic].
    destruct (fault c) as [[|n]|]; [apply IH| |];
      (destruct (Async.perform q (now c)) as [[x w]|]; apply IH).
  - unfold bind. cbn [Async.atomic].
    destruct (Async.effect e (now c) (sent c)) as [[x w] ms]. apply IH.
Qed.


Section Refinement.
Context {B : Type}.
Implicit Types (open : gmap string socket).












End Refinement.







(** *** The machine on one handler *)









(** Events handled as a whole make the machine the step function. *)
Lemma acts_whole evs :
  ∀ w ms,
    Async.store (Async.acts {| Async.store := w; Async.outbox := ms;
                               Async.threads := [] |} (Async.Whole <$> evs))
    = steps w evs.
Proof.
  induction evs as [|ev evs IH]; intros w ms; [done|].
  unfold Async.acts in *. cbn [fmap list_fmap foldl]. apply IH.
Qed.

(** ** Occupancy *)

Lemma connected_size_le code (m1 m2 : gmap string player) :
  (∀ id p, m1 !! id = Some p → connected_in code (id, p) → m2 !! id = Some p) →
  size (filter (connected_in code) m1) ≤ size (filter (connected_in code) m2).
Proof.
  intros H. apply map_subseteq_size, map_subseteq_spec. intros id p.
  rewrite !map_lookup_filter_Some. intros [Hp Hc]. split; [by apply H | done].
Qed.

Lemma step_occupancy w req fault :
  (∀ code, length (connected_players code w) ≤ 2) →
  ∀ code, length (connected_players code (step w (req, fault))) ≤ 2.
Proof.
  intros Hok code. pose proof (step_effect w req fault) as Heff.
  pose proof (Hok code) as Hcode. rewrite connected_players_length in *.
  destruct req as [gen|code0|id0|id0 code0 name|id0 code0 position|id0 code0|id0|n].
  - by destruct Heff as [->|(code0 & _ & ->)].
  - by rewrite Heff.
  - by destruct Heff as [->| ->].
  - destruct Heff as [->|(r0 & stored & _ & Hfree & _ & Heff)]; [done|].
    assert (size (filter (connected_in code)
                    (players (after_upsert w id0 code0 stored))) ≤ 2) as Hup.
    { rewrite connected_players_length in Hfree.
      destruct (decide (code = code0)) as [->|Hne].
      - rewrite connected_after_upsert.
        destruct (filter (connected_in code0) (players w) !! id0) eqn:Hin.
        + rewrite map_size_insert_Some by done. lia.
        + rewrite map_size_insert_None by done. lia.
      - etransitivity; [|exact Hcode]. apply connected_size_le.
        intros id p. cbn [after_upsert set_sockets set_players players].
        rewrite lookup_insert. case_decide; [|done].
        intros [= <-] [Hc _]. done. }
    by destruct Heff as [->| ->].
  - by destruct Heff as [->|(r0 & symbol & _ & ->)].
  - by destruct Heff as [->|[_ ->]].
  - assert (size (filter (connected_in code) (alter offline id0 (players w))) ≤ 2)
      as Hoff.
    { etransitivity; [|exact Hcode]. apply connected_size_le.
      intros id p Hp Hc. destruct (decide (id = id0)) as [->|Hne].
      - by destruct (offline_not_connected _ _ _ code Hp).
      - by rewrite lookup_alter_ne in Hp. }
    by destruct Heff as [->|[->|[->|(code0 & _ & ->)]]].
  - assert (∀ code0,
              size (filter (connected_in code)
                      (players (without_players code0 (set_timers (delete n) w))))
              ≤ 2) as Hless.
    { intros code0. etransitivity; [|exact Hcode]. apply connected_size_le.
      intros id p. cbn [without_players set_players set_timers players].
      by intros [Hp _]%map_lookup_filter_Some _. }
    destruct Heff as [->|(code0 & _ & [->|[_ [->| ->]]])]; try done; apply Hless.
Qed.

(** X11. Handled one after the other, the events of the server never
    leave more than two connected players in a room, whichever queries
    failed on the way. The bound rests on that order: when three joins
    arrive together on a fresh room, each handler counts the connected
    players before any of them has written its row, and the room ends with
    three connected players. *)
Theorem at_most_two_connected :
  (∀ evs code,
     length (connected_players code
               (Async.store (Async.acts Async.boot (Async.Whole <$> evs)))) ≤ 2)
  ∧ Async.idle Async.three_joins = true
  ∧ length (connected_players "ABC123" (Async.store Async.three_joins)) = 3.
Proof.
  split; [|split; by vm_compute].
  intros evs code. unfold Async.boot. rewrite acts_whole. revert code.
  assert (∀ evs w, (∀ code, length (connected_players code w) ≤ 2) →
                   ∀ code, length (connected_players code (steps w evs)) ≤ 2)
    as Hsteps.
  { clear evs. induction evs as [|[req fault] evs IH]; intros w Hw; [done|].
    apply IH. by apply step_occupancy. }
  apply Hsteps. intros code. rewrite connected_players_length.
  cbn [initial players]. rewrite map_filter_empty, map_size_empty. lia.
Qed.

(** X12. Requests about one room leave the other rooms alone: whichever
    query fails, an event changes no existing room other than the one it is
    about (create, lookup, connect and disconnect are about none); and a
    move or a reset changes neither the players table, nor the sockets, nor
    the pending timers. *)
Theorem other_rooms_untouched (w : world) (req : request) (fault : option nat) :
  (∀ code r, game_rooms w !! code = Some r → ¬ concerns req w code →
             game_rooms (step w (req, fault)) !! code = Some r)
  ∧ ((∃ id code position, req = MakeMove id code position)
     ∨ (∃ id code, req = ResetGame id code) →
     players (step w (req, fault)) = players w
     ∧ sockets (step w (req, fault)) = sockets w
     ∧ timers (step w (req, fault)) = timers w).
Proof.
  pose proof (step_effect w req fault) as Heff. split.
  - intros code r Hr Hnot.
    destruct req as [gen|code0|id0|id0 code0 name|id0 code0 position|id0 code0|id0|n];
      cbn [concerns] in Hnot.
    + destruct Heff as [->|(code0 & Hfree & ->)]; [done|].
      rewrite game_rooms_set, lookup_insert_ne; [done|]. intros ->. congruence.
    + by rewrite Heff.
    + by destruct Heff as [->| ->].
    + destruct Heff as [->|(r0 & stored & _ & _ & _ & [->| ->])]; [done|done|].
      unfold after_join. by rewrite game_rooms_set, lookup_alter_ne.
    + destruct Heff as [->|(r0 & symbol & _ & ->)]; [done|].
      unfold after_move. by rewrite game_rooms_set, lookup_alter_ne.
    + destruct Heff as [->|[_ ->]]; [done|].
      by rewrite game_rooms_set, lookup_alter_ne.
    + by destruct Heff as [->|[->|[->|(code0 & _ & ->)]]].
    + destruct Heff as [->|(code0 & Hn & [->|[_ [->| ->]]])]; try done.
      rewrite game_rooms_set, lookup_delete_ne; [done|]. intros ->. done.
  - intros [(id & code & position & ->)|(id & code & ->)].
    + by destruct Heff as [->|(r0 & symbol & _ & ->)].
    + by destruct Heff as [->|[_ ->]].
Qed.

Lemma other_rooms_untouched_witness :
  game_rooms (step two_games (MakeMove "a" "ABC123" 4, None)) !! "ABC123"
  = Some (moved lobby_room 4 "X" lobby_room)
  ∧ game_rooms (step two_games (MakeMove "a" "ABC123" 4, None)) !! "XYZ789"
    = Some second_game
  ∧ players (step two_games (MakeMove "a" "ABC123" 4, None)) = players two_games
  ∧ sockets (step two_games (MakeMove "a" "ABC123" 4, None)) = sockets two_games
  ∧ timers (step two_games (MakeMove "a" "ABC123" 4, None)) = timers two_games.
Proof.
  destruct (other_rooms_untouched two_games (MakeMove "a" "ABC123" 4) None)
    as [Hrooms Hrest].
  split; [vm_compute; reflexivity|]. split.
  - apply Hrooms.
    + vm_compute. reflexivity.
    + cbn. discriminate.
  - apply Hrest. left. by eexists _, _, _.
Defined.

(** X13. A move that no other handler overlaps writes exactly one cell:
    in a reachable world, when the move is applied, the cell at the
    position was empty, it now holds the mover's symbol, which is X or O
    and was the room's currentPlayer, every other cell of the board is as
    before, and the board still has 9 cells. The UPDATE writes the board
    that the handler read, not the board that is stored when it runs: when
    two moves of the same player arrive together, on cells 0 and 1, both
    pass the guards on the same row and both are broadcast as applied, and
    the second UPDATE leaves cell 0 empty. *)
Theorem applied_move_writes_one_cell :
  (∀ w id code position,
     reachable w →
     applied w id code position →
     ∃ r r' symbol,
       game_rooms w !! code = Some r
       ∧ game_rooms (world_after (make_move id code position) None w) !! code
         = Some r'
       ∧ playerSymbol (socket_in w id) = Some symbol
       ∧ symbol = current_player r ∧ is_symbol symbol
       ∧ boardToArray (board r) !! Z.to_nat position = Some ""
       ∧ boardToArray (board r') !! Z.to_nat position = Some symbol
       ∧ (∀ j, j ≠ Z.to_nat position →
               boardToArray (board r') !! j = boardToArray (board r) !! j)
       ∧ length (boardToArray (board r')) = 9)
  ∧ Async.store Async.seated = lobby
  ∧ Async.idle Async.two_moves = true
  ∧ (∃ r, game_rooms (Async.store Async.two_moves) !! "ABC123" = Some r
          ∧ boardToArray (board r) = [""; "X"; ""; ""; ""; ""; ""; ""; ""])
  ∧ (∃ state0 state1 infos,
       drop (length (Async.outbox Async.seated)) (Async.outbox Async.two_moves)
       = (ToRoom "ABC123", game_updated state0)
         :: (ToRoom "ABC123", game_updated state1) :: infos
       ∧ gs_lastMove state0 = Some (0%Z, "X")
       ∧ gs_lastMove state1 = Some (1%Z, "X")).
Proof.
  split_and!.
  - intros w id code position Hreach (r & symbol & Hacc)%applied_accepted.
    pose proof Hacc as (_ & Hr & _ & Hp & Hc & Hpos & Hcell).
    destruct (reachable_rooms_shaped w code r Hreach Hr)
      as [(Hlen & _ & Hxo & _) _].
    rewrite Hc in Hxo.
    exists r, (moved r position symbol r), symbol.
    unfold world_after. rewrite (make_move_accepted _ _ _ _ _ _ Hacc).
    cbn [fst snd]. rewrite (after_move_room _ _ _ _ _ Hr).
    rewrite (moved_board _ _ _ _ Hxo).
    assert (Z.to_nat position < length (boardToArray (board r))) as Hin.
    { by eapply lookup_lt_Some. }
    split_and!; try done.
    + by apply list_lookup_insert_eq.
    + intros j Hj. by apply list_lookup_insert_ne.
    + by rewrite length_insert, boardToArray_length.
  - by vm_compute.
  - by vm_compute.
  - eexists. split; by vm_compute.
  - eexists _, _, _. split_and!; by vm_compute.
Qed.

Lemma applied_move_writes_one_cell_witness :
  ∃ r r' symbol,
    game_rooms lobby !! "ABC123" = Some r
    ∧ game_rooms (world_after (make_move "a" "ABC123" 4) None lobby) !! "ABC123"
      = Some r'
    ∧ playerSymbol (socket_in lobby "a") = Some symbol
    ∧ symbol = current_player r ∧ is_symbol symbol
    ∧ boardToArray (board r) !! Z.to_nat 4 = Some ""
    ∧ boardToArray (board r') !! Z.to_nat 4 = Some symbol
    ∧ (∀ j, j ≠ Z.to_nat 4 →
            boardToArray (board r') !! j = boardToArray (board r) !! j)
    ∧ length (boardToArray (board r')) = 9.
Proof.
  apply (proj1 applied_move_writes_one_cell lobby "a" "ABC123" 4%Z).
  - apply reachable_lobby.
  - eexists. vm_compute. left.
Defined.

(** ** Disconnection *)

Lemma disconnect_run_bound w id code :
  bound_to w id code →
  run (disconnect id) None w
  = (Some tt,
     set_sockets (delete id)
       (set_timers (λ ts, ts ++ [code]) (set_players (alter offline id) w)),
     [(ToOthers code id, player_disconnected id (playerSymbol (socket_in w id)))]).
Proof.
  intros [Hc Hne].
  unfold run, disconnect. unfold bind at 1. unfold try_catch.
  cbv beta. do 2 eval_step.
  change (socket_in (set_players _ w) id) with (socket_in w id).
  rewrite Hc. unfold truthy.
  destruct (String.eqb_spec code "") as [|_]; [done|]. cbn [negb].
  eval_step. done.
Qed.

Lemma disconnect_run_unbound w id :
  roomCode (socket_in w id) = None →
  run (disconnect id) None w
  = (Some tt, set_sockets (delete id) (set_players (alter offline id) w), []).
Proof.
  intros Hc.
  unfold run, disconnect. unfold bind at 1. unfold try_catch.
  cbv beta. do 2 eval_step.
  change (socket_in (set_players _ w) id) with (socket_in w id).
  by rewrite Hc.
Qed.

(** X14. A disconnect marks the player row of the connection as not
    connected, closes the socket and, when the connection was bound to a
    room, tells the other members which symbol left and sets one cleanup
    timer for that room; a connection that never joined sends nothing and
    sets no timer. Whichever query fails, the socket is closed, no room is
    changed and no other player row is changed. *)
Theorem disconnect_effects (w : world) (id : string) :
  (∀ code, bound_to w id code →
     run (disconnect id) None w
     = (Some tt,
        set_sockets (delete id)
          (set_timers (λ ts, ts ++ [code]) (set_players (alter offline id) w)),
        [(ToOthers code id,
          player_disconnected id (playerSymbol (socket_in w id)))]))
  ∧ (roomCode (socket_in w id) = None →
     run (disconnect id) None w
     = (Some tt, set_sockets (delete id) (set_players (alter offline id) w), []))
  ∧ (∀ fault,
       sockets (world_after (disconnect id) fault w) !! id = None
       ∧ game_rooms (world_after (disconnect id) fault w) = game_rooms w
       ∧ (∀ id', id' ≠ id →
            players (world_after (disconnect id) fault w) !! id'
            = players w !! id'
            ∧ sockets (world_after (disconnect id) fault w) !! id'
              = sockets w !! id')
       ∧ (∀ p, players (world_after (disconnect id) fault w) !! id = Some p →
               ∃ q, players w !! id = Some q ∧ symbol p = symbol q
                    ∧ p_room_code p = p_room_code q)).
Proof.
  split_and!.
  - apply disconnect_run_bound.
  - apply disconnect_run_unbound.
  - intros fault.
    destruct (effect_run _ _ _ fault (disconnect_effect_holds w id))
      as [->|[->|(code & _ & ->)]];
      cbn [set_sockets set_timers set_players sockets players game_rooms];
      (split_and!;
       [ apply lookup_delete_eq
       | done
       | intros id' Hne; rewrite ?lookup_alter_ne by done;
         by rewrite lookup_delete_ne
       | ]).
    + intros p Hp. by exists p.
    + intros p Hp. apply lookup_offline in Hp as (q & Hq & ? & ?). by exists q.
    + intros p Hp. apply lookup_offline in Hp as (q & Hq & ? & ?). by exists q.
Qed.

Lemma disconnect_effects_witness :
  run (disconnect "a") None lobby
  = (Some tt,
     set_sockets (delete "a")
       (set_timers (λ ts, ts ++ ["ABC123"]) (set_players (alter offline "a") lobby)),
     [(ToOthers "ABC123" "a",
       player_disconnected "a" (playerSymbol (socket_in lobby "a")))]).
Proof.
  apply (proj1 (disconnect_effects lobby "a") "ABC123").
  split; [reflexivity | discriminate].
Defined.

(** ** What a join writes in the room *)

(** X15. A join whose name the players table accepts never changes the
    board, the currentPlayer or the winner of the room. A joiner who finds
    no connected player becomes player 1 and leaves the status as it is; a
    joiner who finds exactly one becomes player 2 and sets the status to
    playing whatever it was, so that a finished room is playing again with
    its finished board. A joiner whose name is refused is answered by
    'Failed to join room' alone, and a join to a code that has no room by
    'Room not found' alone; neither changes anything. *)
Theorem join_room_columns (w : world) (id code name : string) :
  (∀ r, game_rooms w !! code = Some r →
     length (connected_players code w) < 2 →
     accepted name →
     ∃ r', game_rooms (world_after (join_room id code name) None w) !! code
           = Some r'
           ∧ board r' = board r ∧ current_player r' = current_player r
           ∧ winner r' = winner r
           ∧ (connected_players code w = [] →
              game_status r' = game_status r
              ∧ player1_id r' = Some id ∧ player2_id r' = player2_id r)
           ∧ (length (connected_players code w) = 1 →
              game_status r' = "playing"
              ∧ player1_id r' = player1_id r ∧ player2_id r' = Some id))
  ∧ (∀ r, game_rooms w !! code = Some r →
       length (connected_players code w) < 2 →
       ¬ accepted name →
       run (join_room id code name) None w
       = (Some tt, w, [(ToSocket id, error "Failed to join room")]))
  ∧ (game_rooms w !! code = None →
     run (join_room id code name) None w
     = (Some tt, w, [(ToSocket id, error "Room not found")])).
Proof.
  split_and!.
  - intros r Hr Hfree [stored Hname].
    destruct (join_room_joined w id code name stored r Hr Hfree Hname)
      as [ms Hrun].
    unfold world_after. rewrite Hrun. cbn [fst snd].
    rewrite (after_join_room _ _ _ _ _ Hr).
    destruct (connected_players code w) as [|row rows] eqn:Hrows.
    + eexists. split; [done|]. cbn. split_and!; try done.
    + eexists. split; [done|]. cbn. split_and!; try done.
  - intros r Hr Hfree Hname. apply (join_room_refused w id code name r Hr Hfree).
    unfold accepted in Hname. destruct (varchar 100 name); [|done].
    destruct Hname. by eexists.
  - intros Hnone. unfold run, join_room, try_catch. cbv beta.
    eval_step. by rewrite Hnone.
Qed.

Lemma join_room_columns_witness :
  ∃ r', game_rooms (world_after (join_room "c" "ABC123" "Carol") None
                      (steps drawn [(Disconnect "b", None); (Connection "c", None)]))
          !! "ABC123" = Some r'
        ∧ board r' = "XOXXOOOXX" ∧ current_player r' = "O" ∧ winner r' = None
        ∧ game_status r' = "playing"
        ∧ player1_id r' = Some "a" ∧ player2_id r' = Some "c".
Proof.
  destruct (proj1 (join_room_columns
                     (steps drawn [(Disconnect "b", None); (Connection "c", None)])
                     "c" "ABC123" "Carol")
              {| player1_id := Some "a"; player2_id := Some "b";
                 current_player := "O"; board := "XOXXOOOXX";
                 game_status := "finished"; winner := None |})
    as (r' & Hr' & Hb & Hc & Hw & _ & Hsecond).
  - vm_compute. reflexivity.
  - vm_compute. lia.
  - eexists. reflexivity.
  - exists r'. destruct Hsecond as (Hs & H1 & H2); [vm_compute; reflexivity|].
    split_and!; done.
Defined.

(** ** Which attempt creates the room *)

(** X16. Without failure of the store, [create-room] creates a room exactly
    when one of the first nine candidate codes is free: the room gets the
    first free candidate, with the defaults of a new room, and nothing else
    changes; when the first nine candidates all collide the answer is the
    500 error and the store is unchanged, whatever the tenth candidate is. *)
Theorem create_room_first_nine (w : world) (gen : nat → string) :
  (∀ k, k < 9 →
     (∀ i, i < k → is_Some (game_rooms w !! gen i)) →
     game_rooms w !! gen k = None →
     run (create_room gen) None w
     = (Some (created (gen k)),
        set_game_rooms (insert (gen k) new_room) w, []))
  ∧ ((∀ i, i < 9 → is_Some (game_rooms w !! gen i)) →
     run (create_room gen) None w
     = (Some (failed 500 "Unable to generate unique room code"), w, [])).
Proof.
  split.
  - intros k. apply create_room_creates.
  - apply create_room_nine_collisions.
Qed.

Lemma create_room_first_nine_witness :
  run (create_room (collide_then_free 3)) None crowded
  = (Some (created (collide_then_free 3 3)),
     set_game_rooms (insert (collide_then_free 3 3) new_room) crowded, []).
Proof.
  apply (proj1 (create_room_first_nine crowded (collide_then_free 3)) 3).
  - lia.
  - intros i Hi. destruct i as [|[|[|i]]]; [by eexists..|lia].
  - vm_compute. reflexivity.
Defined.

(** ** The client *)

(** X17. The button of a cell is enabled exactly when a click on it sends a
    move: [makeMove] emits if and only if [updateBoardDisplay] did not
    disable the cell, that is when the cell is empty, the status is playing
    and it is the client's turn; the move sent carries the client's room
    code and the index of the cell. *)
Theorem makeMove_iff_enabled (g : Client.gameState) (index : nat) :
  (Client.shouldDisable g index = false
   ↔ Client.makeMove g index = Some (Client.roomCode g, Z.of_nat index))
  ∧ (Client.shouldDisable g index = true ↔ Client.makeMove g index = None)
  ∧ (Client.makeMove g index ≠ None
     ↔ Client.board g !! index = Some ""
       ∧ Client.gameStatus g = "playing" ∧ Client.isMyTurn g = true).
Proof.
  unfold Client.shouldDisable, Client.makeMove, strict_eq.
  destruct (decide (Client.board g !! index = Some "")) as [Hc|Hc].
  - rewrite (bool_decide_eq_true_2 _ Hc). cbn [negb orb].
    destruct (String.eqb_spec (Client.gameStatus g) "playing") as [Hs|Hs];
      cbn [negb orb]; destruct (Client.isMyTurn g); cbn [negb];
      split_and!; split; try done; try tauto; intros (_ & ? & ?); done.
  - rewrite (bool_decide_eq_false_2 _ Hc). cbn [negb orb].
    split_and!; split; try done; tauto.
Qed.



Lemma makeMove_emits (g : Client.gameState) (index : nat) :
  (Client.makeMove g index = Some (Client.roomCode g, Z.of_nat index)
   ∨ Client.makeMove g index = None)
  ∧ (Client.makeMove g index ≠ None
     ↔ Client.board g !! index = Some ""
       ∧ Client.gameStatus g = "playing" ∧ Client.isMyTurn g = true).
Proof.
  unfold Client.makeMove, strict_eq.
  destruct (decide (Client.board g !! index = Some "")) as [Hc|Hc].
  - rewrite (bool_decide_eq_true_2 _ Hc). cbn [negb].
    destruct (String.eqb_spec (Client.gameStatus g) "playing") as [Hs|Hs];
      cbn [negb]; destruct (Client.isMyTurn g); cbn [negb];
      (split; [auto|]); split; try done; intros (_ & ? & ?); done.
  - rewrite (bool_decide_eq_false_2 _ Hc). cbn [negb].
    split; [auto|]. split; [done | tauto].
Qed.

(** X18. Client and server agree on which moves are legal: when the
    client's state shows a room of a reachable world as it is stored, a
    click on a cell sends a move exactly when the server accepts a move of
    that connection at that position; the move sent names the client's room
    and the cell, and the server applies it. *)
Theorem client_server_agree (w : world) (id code : string) (g : Client.gameState)
    (index : nat) :
  reachable w →
  mirrors w id code g →
  bound_to w id code →
  (Client.makeMove g index ≠ None
   ↔ ∃ r symbol, move_accepted w id code (Z.of_nat index) r symbol)
  ∧ (∀ payload, Client.makeMove g index = Some payload →
                payload = (Some code, Z.of_nat index)
                ∧ applied w id code (Z.of_nat index)).
Proof.
  intros Hreach (r & Hr & Hcode & Hboard & Hcur & Hstatus & _ & _ & Hsym & Hturn) Hb.
  destruct (makeMove_emits g index) as [Hpayload Hemit].
  destruct (reachable_rooms_shaped w code r Hreach Hr) as [(Hlen & _) _].
  assert (Client.makeMove g index ≠ None
          ↔ ∃ r symbol, move_accepted w id code (Z.of_nat index) r symbol)
    as Hiff.
  { rewrite Hemit, Hboard, Hstatus, Hturn. split.
    - intros (Hcell & Hs & Hp & _). exists r, (current_player r).
      unfold move_accepted. rewrite Nat2Z.id. split_and!; try done; [lia|].
      apply lookup_lt_Some in Hcell. rewrite boardToArray_length in Hcell. lia.
    - intros (r0 & symbol & _ & Hr0 & Hs & Hp & Hc & _ & Hcell).
      assert (r0 = r) as -> by congruence.
      rewrite Nat2Z.id in Hcell. rewrite Hc. done. }
  split; [done|]. intros payload Hsome.
  assert (Client.makeMove g index ≠ None) as Hne by congruence.
  split.
  - destruct Hpayload as [Hp|Hp]; [|congruence]. rewrite Hcode in Hp. congruence.
  - apply applied_accepted. by apply Hiff.
Qed.








(** X20. The client decodes the stored winner correctly. For a finished
    room of a reachable world, a client whose state shows the room displays
    the game controls and: the draw text exactly when the board evaluates to
    'draw' (stored as null), the winning text when the evaluation is the
    client's own symbol, and the losing text otherwise. *)
Theorem client_verdict (w : world) (id code : string) (r : room)
    (g : Client.gameState) :
  reachable w →
  game_rooms w !! code = Some r →
  game_status r = "finished" →
  mirrors w id code g →
  Client.updateStatusDisplay g
  = (true, Some (verdict (checkWinner (boardToArray (board r)))
                   (Client.playerSymbol g))).
Proof.
  intros Hreach Hr Hfin (r0 & Hr0 & _ & _ & _ & Hstatus & Hwinner & _).
  assert (r0 = r) as -> by congruence.
  destruct (reachable_rooms_ok w Hreach code r Hr) as [_ Hok].
  destruct (Hok Hfin) as [Htruthy Hwin].
  unfold Client.updateStatusDisplay, verdict.
  rewrite Hstatus, Hfin, Hwinner, Hwin. cbn [String.eqb Ascii.eqb Bool.eqb].
  unfold strict_eq in *.
  destruct (checkWinner (boardToArray (board r))) as [s|]; [|done].
  destruct (decide (s = "draw")) as [->|Hs].
  - rewrite (bool_decide_eq_true_2 (Some "draw" = Some "draw")) by done.
    cbv iota. rewrite (bool_decide_eq_true_2 (@None string = None)) by done.
    by rewrite orb_true_r.
  - rewrite (bool_decide_eq_false_2 (Some s = Some "draw")) by congruence.
    cbv iota.
    rewrite (bool_decide_eq_false_2 (Some s = Some "draw")) by congruence.
    rewrite (bool_decide_eq_false_2 (Some s = None)) by done. cbn [orb].
    by destruct (bool_decide (Some s = Client.playerSymbol g)).
Qed.

Lemma client_verdict_witness :
  Client.updateStatusDisplay
    (Client.deliver "b" "ABC123" Client.initial
       (messages_of (make_move "a" "ABC123" 8) None
          (play "ABC123" lobby
             [("a", 0); ("b", 1); ("a", 2); ("b", 4);
              ("a", 3); ("b", 5); ("a", 7); ("b", 6)]%Z)))
  = (true, Some ("It's a Draw! 🤝", "status-finished")).
Proof.
  refine (client_verdict drawn "b" "ABC123"
            {| player1_id := Some "a"; player2_id := Some "b";
               current_player := "O"; board := "XOXXOOOXX";
               game_status := "finished"; winner := None |}
            _ _ _ _ _).
  - apply reachable_steps, reachable_lobby.
  - vm_compute. reflexivity.
  - reflexivity.
  - eexists. vm_compute. split_and!; try reflexivity.
    + intros Hturn. discriminate Hturn.
    + intros [_ Hplaying]. discriminate Hplaying.
Defined.

Lemma client_server_agree_witness :
  Client.makeMove lobby_view 4 ≠ None
  ↔ ∃ r symbol, move_accepted lobby "a" "ABC123" (Z.of_nat 4) r symbol.
Proof.
  refine (proj1 (client_server_agree lobby "a" "ABC123" lobby_view 4 _ _ _)).
  - apply reachable_lobby.
  - exists lobby_room. vm_compute. split_and!; try reflexivity.
    intros _. split; reflexivity.
  - split; [reflexivity | discriminate].
Defined.

Lemma sendPlayerInfo_sends_witness :
  messages_of (sendPlayerInfo "NOROOM") None lobby = [].
Proof.
  apply (proj2 (proj2 (proj2 (sendPlayerInfo_sends lobby "NOROOM")))).
  vm_compute. reflexivity.
Defined.

(** ** What the cleanup spares *)



(** ** The marks on the board *)

Lemma marks_insert (s c : string) (boardArray : list string) :
  ∀ n, boardArray !! n = Some "" → s ≠ "" →
       marks s (<[n := c]> boardArray)
       = marks s boardArray + (if decide (c = s) then 1 else 0).
Proof.
  unfold marks.
  induction boardArray as [|cell rest IH]; intros n Hn Hs; [done|].
  destruct n as [|n].
  - cbn in Hn. injection Hn as ->.
    change (<[0 := c]> ("" :: rest)) with (c :: rest).
    rewrite !filter_cons. rewrite (decide_False (P := "" = s)) by done.
    destruct (decide (c = s)); cbn [length]; lia.
  - cbn in Hn.
    change (<[S n := c]> (cell :: rest)) with (cell :: <[n := c]> rest).
    rewrite !filter_cons. specialize (IH n Hn Hs).
    destruct (decide (cell = s)); cbn [length]; [by rewrite IH | exact IH].
Qed.

(** X22. The marks on the board always balance: in every reachable world,
    whichever queries failed on the way, the board of a room holds as many
    X as O when X is to move, and one X more than O when O is to move. *)
Theorem marks_balanced (w : world) (code : string) (r : room) :
  reachable w →
  game_rooms w !! code = Some r →
  balanced r.
Proof.
  intros Hreach Hr.
  enough (is_symbol (current_player r) ∧ balanced r) as [_ H] by done.
  revert w Hreach code r Hr.
  apply (rooms_invariant (λ r, is_symbol (current_player r) ∧ balanced r)).
  - split; [by left | done].
  - intros id r H. exact H.
  - intros id r H. exact H.
  - intros r _. split; [by left | done].
  - intros r position [Hsym Hbal] _ _ Hcell. split.
    { cbn [moved current_player].
      destruct (String.eqb _ "X"); [by right | by left]. }
    unfold balanced in *. rewrite (moved_board _ _ _ _ Hsym).
    rewrite !marks_insert by done.
    cbn [moved current_player].
    destruct Hsym as [HX|HO]; rewrite ?HX, ?HO in *;
      repeat case_decide; try congruence;
      cbn [String.eqb Ascii.eqb Bool.eqb] in *; lia.
Qed.

Lemma marks_balanced_witness : balanced lobby_room.
Proof.
  apply (marks_balanced lobby "ABC123" lobby_room).
  - apply reachable_lobby.
  - reflexivity.
Defined.
